(** * libWexpr: the WexprTool driver and the expression codec

    The driver ([WexprTool/Private/Application.cpp]) is embedded from its
    source.  The library behind [libWexpr/Expression.h] is present only as
    declarations; the driver sees it through the interface [WexprLibrary],
    and the parts of it that properties speak about directly (base64, the
    expression tree and its accessors, the textual parser and writer, the
    binary chunk codec) are modelled from the specification and marked so. *)

From Stdlib Require Import List NArith ZArith Lia Bool.
From Stdlib Require Import Strings.String Strings.Ascii Strings.Byte.
From Stdlib Require Import DecimalString.
Import ListNotations.

Set Warnings "-register-all".

Local Open Scope N_scope.

(** ** Bytes and text *)

(** A [std::string] / [char*] payload is a list of bytes. *)
Definition bytes := list byte.

(** The bytes of a Rocq string literal (used for ASCII constants). *)
Definition text (s : string) : bytes := list_byte_of_string s.

Definition byte_eqb (a b : byte) : bool := Byte.eqb a b.

Fixpoint bytes_eqb (a b : bytes) : bool :=
  match a, b with
  | [], [] => true
  | x :: a', y :: b' => byte_eqb x y && bytes_eqb a' b'
  | _, _ => false
  end.

(** Decimal rendering of an unsigned number, as [operator<<] prints it. *)
Definition decimal (n : N) : string := NilZero.string_of_uint (N.to_uint n).

(** ** Machine integers *)

(** [size_t] is 64 bits wide on the targets the tool is built for; sums of
    [size_t] values wrap. *)
Definition SIZE_MAX_succ : N := 2 ^ 64.
Definition size_t_add (a b : N) : N := (a + b) mod SIZE_MAX_succ.

Inductive Endianness := LittleEndian | BigEndian.

(** The host the tool runs on. *)
Class Host := { endianness : Endianness }.

(** [*reinterpret_cast<const uint32_t*>(p)]: the four bytes at [p] read in
    host order. *)
Definition uint32_of_bytes `{Host} (b0 b1 b2 b3 : byte) : N :=
  match endianness with
  | BigEndian =>
      N.lor (N.shiftl (Byte.to_N b0) 24)
        (N.lor (N.shiftl (Byte.to_N b1) 16)
           (N.lor (N.shiftl (Byte.to_N b2) 8) (Byte.to_N b3)))
  | LittleEndian =>
      N.lor (N.shiftl (Byte.to_N b3) 24)
        (N.lor (N.shiftl (Byte.to_N b2) 16)
           (N.lor (N.shiftl (Byte.to_N b1) 8) (Byte.to_N b0)))
  end.

(** [*reinterpret_cast<uint32_t*>(p) = x]: the four bytes a host-order store
    of [x] leaves at [p]. *)
Definition byte_of_N (n : N) : byte :=
  match Byte.of_N (N.land n 255) with
  | Some b => b
  | None => x00
  end.

Definition bytes_of_uint32 `{Host} (x : N) : list byte :=
  let be := [byte_of_N (N.shiftr x 24); byte_of_N (N.shiftr x 16);
             byte_of_N (N.shiftr x 8); byte_of_N x] in
  match endianness with
  | BigEndian => be
  | LittleEndian => rev be
  end.

(** The 32-bit value whose big-endian bytes are [b0 b1 b2 b3]. *)
Definition uint32_of_big_endian (b0 b1 b2 b3 : byte) : N :=
  N.lor (N.shiftl (Byte.to_N b0) 24)
    (N.lor (N.shiftl (Byte.to_N b1) 16)
       (N.lor (N.shiftl (Byte.to_N b2) 8) (Byte.to_N b3))).

Definition bswap32 (x : N) : N :=
  N.lor (N.shiftl (N.land x 255) 24)
    (N.lor (N.shiftl (N.land (N.shiftr x 8) 255) 16)
       (N.lor (N.shiftl (N.land (N.shiftr x 16) 255) 8)
          (N.land (N.shiftr x 24) 255))).

(** Modelled from the spec: [wexpr_uint32ToBig] of the absent [Endian.h],
    "convert a 32-bit unsigned from host to big-endian". *)
Definition wexpr_uint32ToBig `{Host} (x : N) : N :=
  match endianness with
  | BigEndian => x
  | LittleEndian => bswap32 x
  end.

(** Modelled from the spec: [wexpr_bigUInt32ToNative] of the absent
    [Endian.h], "from big-endian to host". *)
Definition wexpr_bigUInt32ToNative `{Host} (x : N) : N :=
  match endianness with
  | BigEndian => x
  | LittleEndian => bswap32 x
  end.

(** ** Errors *)

(** Modelled from the spec: the error kinds of the absent [Error.h], in the
    order of the specification's taxonomy.  [WexprErrorCodeNone] is the zero
    value, the one [if (err.code)] takes for "no error". *)
Inductive WexprErrorCode :=
| WexprErrorCodeNone
| WexprErrorCodeInvalidUTF8
| WexprErrorCodeStringMissingEndingQuote
| WexprErrorCodeInvalidStringEscape
| WexprErrorCodeMapKeyMustBeAValue
| WexprErrorCodeMapNoValue
| WexprErrorCodeMapMissingEndParen
| WexprErrorCodeArrayMissingEndParen
| WexprErrorCodeReferenceMissingEndBracket
| WexprErrorCodeReferenceInsertMissingEnd
| WexprErrorCodeReferenceUnknownReference
| WexprErrorCodeBinaryDataNoEnding
| WexprErrorCodeBinaryDataInvalidBase64
| WexprErrorCodeExtraDataAfterParsingRoot
| WexprErrorCodeEmptyString
| WexprErrorCodeBinaryInvalidHeader
| WexprErrorCodeBinaryUnknownVersion
| WexprErrorCodeBinaryMultipleExpressions
| WexprErrorCodeBinaryChunkOverflow
| WexprErrorCodeBinaryUnknownType
| WexprErrorCodeBinaryChunkNotMap.

(** [if (err.code)]. *)
Definition code_is_set (c : WexprErrorCode) : bool :=
  match c with
  | WexprErrorCodeNone => false
  | _ => true
  end.

(** Modelled from the spec: the error structure [{kind, line, column,
    message}] of the absent [Error.h].  The message pointer is represented by
    the text it points to. *)
Record WexprError := mkWexprError {
  code : WexprErrorCode;
  message : string;
  line : N;
  column : N
}.

(** Modelled from the spec: [WEXPR_ERROR_INIT()] of the absent [Error.h], the
    error that records nothing. *)
Definition WEXPR_ERROR_INIT : WexprError :=
  {| code := WexprErrorCodeNone; message := ""; line := 0; column := 0 |}.

(** ** The library as the driver sees it *)

Inductive WexprWriteFlags := WexprWriteFlagNone | WexprWriteFlagHumanReadable.

(** The functions of [libWexpr.h] that [main] calls.  A [WexprError*]
    out-parameter is an error passed in and returned; a pointer result that
    may be null is an [option].  A [(data, length)] argument pair is the
    memory readable from [data] on, and the length the caller states. *)
Class WexprLibrary := {
  WexprExpression : Type;
  wexpr_Version_major : N;
  wexpr_Version_minor : N;
  wexpr_Version_patch : N;
  wexpr_Expression_createFromBinaryChunk :
    bytes -> N -> WexprError -> option WexprExpression * WexprError;
  wexpr_Expression_createFromLengthString :
    bytes -> N -> WexprError -> option WexprExpression * WexprError;
  wexpr_Expression_createStringRepresentation :
    WexprExpression -> N -> WexprWriteFlags -> bytes;
  wexpr_Expression_createBinaryRepresentation :
    WexprExpression -> bytes
}.

(** ** The command line *)

(** [CommandLineParser::Command]: the four commands [main] names, and the
    value that reaches its final [else]. *)
Inductive Command :=
| CommandUnknown
| CommandHumanReadable
| CommandValidate
| CommandMini
| CommandBinary.

(** [CommandLineParser::Results], as far as [main] reads it. *)
Record Results := mkResults {
  version : bool;
  help : bool;
  command : Command;
  inputPath : string;
  outputPath : string
}.

(** ** What a run does *)

(** The observable actions of the tool, in order. *)
Inductive Event :=
| Stdout (l : string)               (* a line on [std::cout] *)
| Stderr (l : string)               (* a line on [std::cerr] *)
| DisplayHelp                       (* [CommandLineParser::displayHelp] *)
| Output (path : string) (content : bytes).
                                    (* the stream [path] names receives [content] *)

Definition EXIT_SUCCESS : Z := 0%Z.
Definition EXIT_FAILURE : Z := 1%Z.

Record Run := mkRun {
  events : list Event;
  status : Z
}.

(** How a piece of code ends: with a value, by reading outside the input
    buffer (undefined behaviour), or not within the iterations granted. *)
Inductive Outcome (A : Type) :=
| Returned (a : A)
| OutOfBounds
| OutOfFuel.
Arguments Returned {A} a.
Arguments OutOfBounds {A}.
Arguments OutOfFuel {A}.

(** ** Reading the input buffer *)

(** [inputStr.data()]: the contents followed by the terminator that
    [std::string] keeps at index [size()]. *)
Definition buffer (input : bytes) : bytes := input ++ [x00].

(** [data[i]]; [None] outside the buffer. *)
Definition read_uint8 (input : bytes) (i : N) : option byte :=
  nth_error (buffer input) (N.to_nat i).

(** [*reinterpret_cast<const uint32_t*>(data + i)]. *)
Definition read_uint32 `{Host} (input : bytes) (i : N) : option N :=
  match read_uint8 input i, read_uint8 input (i + 1),
        read_uint8 input (i + 2), read_uint8 input (i + 3) with
  | Some b0, Some b1, Some b2, Some b3 => Some (uint32_of_bytes b0 b1 b2 b3)
  | _, _, _, _ => None
  end.

(** [memcmp(data + i, expected, sizeof expected) != 0], for a range inside
    the buffer. *)
Definition memcmp_differs (input : bytes) (i : N) (expected : bytes) : bool :=
  negb (bytes_eqb (firstn (List.length expected) (skipn (N.to_nat i) (buffer input)))
          expected).

(** ** The driver *)

Definition magic : bytes := [x83; x42; x57; x45; x58; x50; x52; x0a].

Definition reserved : bytes := [x00; x00; x00; x00; x00; x00; x00; x00].

Section Driver.
Context `{Host} `{WexprLibrary}.

(** The variables of the chunk loop. *)
Record Scan := mkScan {
  curPos : N;
  expr : option WexprExpression;
  err : WexprError
}.

(** How one pass through the loop body ends. *)
Inductive Flow :=
| Continue (s : Scan)       (* falls through to the loop test *)
| Break (s : Scan)          (* [break] *)
| Fault.                    (* a read outside the buffer *)

Definition binaryError (c : WexprErrorCode) (m : string) : WexprError :=
  {| code := c; message := m; line := 0; column := 0 |}.

(** The body of [while (curPos < endPos)]. *)
Definition scan_body (input : bytes) (s : Scan) : Flow :=
  match read_uint32 input (curPos s),
        read_uint8 input (size_t_add (curPos s) 4) with
  | Some raw, Some type =>
      let size := wexpr_bigUInt32ToNative raw in
      let advanced := size_t_add (size_t_add (curPos s) 5) size in
      if Byte.to_N type <=? 4 then
        match expr s with
        | Some _ =>
            Break {| curPos := curPos s;
                     expr := expr s;
                     err := binaryError WexprErrorCodeBinaryMultipleExpressions
                              "Found multiple expression chunks" |}
        | None =>
            let '(e, err') :=
              wexpr_Expression_createFromBinaryChunk
                (skipn (N.to_nat (curPos s)) input)
                (size_t_add (size_t_add size 4) 1)
                (err s) in
            Continue {| curPos := advanced; expr := e; err := err' |}
        end
      else Continue {| curPos := advanced; expr := expr s; err := err s |}
  | _, _ => Fault
  end.

(** [while (curPos < endPos) { ... }], for at most [fuel] passes. *)
Fixpoint scan (fuel : nat) (input : bytes) (s : Scan) : Outcome Scan :=
  if curPos s <? N.of_nat (List.length input) then
    match fuel with
    | O => OutOfFuel
    | S fuel' =>
        match scan_body input s with
        | Continue s' => scan fuel' input s'
        | Break s' => Returned s'
        | Fault => OutOfBounds
        end
    end
  else Returned s.

(** What the loop leaves for the rest of [main]: [expr] and [err]. *)
Definition leaves (o : Outcome Scan)
  : Outcome (option WexprExpression * WexprError) :=
  match o with
  | Returned s => Returned (expr s, err s)
  | OutOfBounds => OutOfBounds
  | OutOfFuel => OutOfFuel
  end.

(** The [do { ... } while (0)] block of [main]: from the input to the
    expression and the error it leaves behind. *)
Definition load (input : bytes) : Outcome (option WexprExpression * WexprError) :=
  let size := N.of_nat (List.length input) in
  let err0 := WEXPR_ERROR_INIT in
  if (1 <=? size) && (match input with b :: _ => byte_eqb b x83 | [] => false end) then
    if size <? 20 then
      Returned (None, binaryError WexprErrorCodeBinaryInvalidHeader
                        "Invalid binary header - not big enough")
    else if memcmp_differs input 0 magic then
      Returned (None, binaryError WexprErrorCodeBinaryInvalidHeader
                        "Invalid binary header - invalid magic")
    else
      match read_uint32 input 8 with
      | None => OutOfBounds
      | Some v =>
          if negb (v =? wexpr_uint32ToBig 1) then
            Returned (None, binaryError WexprErrorCodeBinaryUnknownVersion
                              "Invalid binary header - unknown version")
          else if memcmp_differs input 12 reserved then
            Returned (None, binaryError WexprErrorCodeBinaryInvalidHeader
                              "Invalid binary header - unknown reserved bits")
          else
            leaves (scan (List.length input) input
                      {| curPos := 20; expr := None; err := err0 |})
      end
  else
    Returned (wexpr_Expression_createFromLengthString input size err0).

(** The path as the error line shows it. *)
Definition shownInput (r : Results) : string :=
  if String.eqb (inputPath r) "-" then "(stdin)" else inputPath r.

Definition errorLine (r : Results) (e : WexprError) : string :=
  ("WexprTool: " ++ shownInput r ++ ":" ++ decimal (line e) ++ ":"
     ++ decimal (column e) ++ ": " ++ message e)%string.

(** The 20-byte file header [s_writeAllOutputWithFileHeaderTo] emits. *)
Definition fileHeader : bytes :=
  magic ++ bytes_of_uint32 (wexpr_uint32ToBig 1) ++ reserved.

(** [main], after the input has been read: everything from the [do] block
    to the final [return]. *)
Definition run (r : Results) (input : bytes) : Outcome Run :=
  let isValidate :=
    match command r with CommandValidate => true | _ => false end in
  match load input with
  | OutOfBounds => OutOfBounds
  | OutOfFuel => OutOfFuel
  | Returned (expr, err) =>
      if code_is_set (code err) then
        if isValidate then
          Returned {| events := [Output (outputPath r) (text "false" ++ [x0a])];
                      status := EXIT_FAILURE |}
        else
          Returned {| events := [Stderr "WexprTool: Error occurred with wexpr:";
                                 Stderr (errorLine r err)];
                      status := EXIT_FAILURE |}
      else
        match expr with
        | None =>
            if isValidate then
              Returned {| events := [Output (outputPath r) (text "false" ++ [x0a])];
                          status := EXIT_FAILURE |}
            else
              Returned {| events := [Stderr "WexprTool: Got an empty expression back"];
                          status := EXIT_FAILURE |}
        | Some e =>
            let written :=
              match command r with
              | CommandValidate =>
                  [Output (outputPath r) (text "true" ++ [x0a])]
              | CommandHumanReadable =>
                  [Output (outputPath r)
                     (wexpr_Expression_createStringRepresentation e 0
                        WexprWriteFlagHumanReadable)]
              | CommandMini =>
                  [Output (outputPath r)
                     (wexpr_Expression_createStringRepresentation e 0
                        WexprWriteFlagNone)]
              | CommandBinary =>
                  [Output (outputPath r)
                     (fileHeader ++ wexpr_Expression_createBinaryRepresentation e)]
              | CommandUnknown => []
              end in
            Returned {| events := written; status := EXIT_SUCCESS |}
        end
  end.

(** [main]: [r] is what [CommandLineParser::parse] returned, [input] what
    [s_readAllInputFrom (r.inputPath)] reads. *)
Definition main (r : Results) (input : bytes) : Outcome Run :=
  if version r then
    Returned {| events := [Stdout ("WexprTool " ++ decimal wexpr_Version_major
                                     ++ "." ++ decimal wexpr_Version_minor
                                     ++ "." ++ decimal wexpr_Version_patch)%string];
                status := EXIT_SUCCESS |}
  else if help r then
    Returned {| events := [DisplayHelp]; status := EXIT_SUCCESS |}
  else
    match command r with
    | CommandUnknown =>
        Returned {| events := [Stderr "WexprTool: Unknown command"];
                    status := EXIT_FAILURE |}
    | _ => run r input
    end.

End Driver.

(** * The library, modelled from the specification *)

(** ** Base64 *)

Module Base64.

Definition alphabet : bytes :=
  text "ABCDEFGHIJKLMNOPQRSTUVWXYZabcdefghijklmnopqrstuvwxyz0123456789+/".

(** The padding character [=]. *)
Definition pad : byte := x3d.

(** The character of a 6-bit value. *)
Definition char_of_sextet (s : N) : byte := nth (N.to_nat s) alphabet pad.

Fixpoint index_of (c : byte) (l : bytes) (i : N) : option N :=
  match l with
  | [] => None
  | x :: l' => if byte_eqb c x then Some i else index_of c l' (i + 1)
  end.

(** The 6-bit value of a character of the alphabet; [None] for any other
    byte, [=] included. *)
Definition sextet_of_char (c : byte) : option N := index_of c alphabet 0.

(** Three bytes, as numbers, to four 6-bit values. *)
Definition sextet0 (b0 : N) : N := N.shiftr b0 2.
Definition sextet1 (b0 b1 : N) : N :=
  N.lor (N.shiftl (N.land b0 3) 4) (N.shiftr b1 4).
Definition sextet2 (b1 b2 : N) : N :=
  N.lor (N.shiftl (N.land b1 15) 2) (N.shiftr b2 6).
Definition sextet3 (b2 : N) : N := N.land b2 63.

(** Four 6-bit values to three bytes. *)
Definition octet0 (s0 s1 : N) : N := N.lor (N.shiftl s0 2) (N.shiftr s1 4).
Definition octet1 (s1 s2 : N) : N :=
  N.lor (N.shiftl (N.land s1 15) 4) (N.shiftr s2 2).
Definition octet2 (s2 s3 : N) : N := N.lor (N.shiftl (N.land s2 3) 6) s3.

(** Modelled from the spec: the encoder of the absent [Base64.c], "standard
    base64 with [=] padding and no line breaks". *)
Fixpoint encode (b : bytes) : bytes :=
  match b with
  | [] => []
  | [b0] =>
      let n0 := Byte.to_N b0 in
      [char_of_sextet (sextet0 n0); char_of_sextet (sextet1 n0 0); pad; pad]
  | [b0; b1] =>
      let n0 := Byte.to_N b0 in
      let n1 := Byte.to_N b1 in
      [char_of_sextet (sextet0 n0); char_of_sextet (sextet1 n0 n1);
       char_of_sextet (sextet2 n1 0); pad]
  | b0 :: b1 :: b2 :: rest =>
      let n0 := Byte.to_N b0 in
      let n1 := Byte.to_N b1 in
      let n2 := Byte.to_N b2 in
      char_of_sextet (sextet0 n0) :: char_of_sextet (sextet1 n0 n1)
        :: char_of_sextet (sextet2 n1 n2) :: char_of_sextet (sextet3 n2)
        :: encode rest
  end.

(** Modelled from the spec: the decoder of the absent [Base64.c].  It
    "accepts the standard alphabet plus [=] and fails ... on any other byte
    or on truncated groups": the input is read in groups of four
    characters, [=] is taken as padding of the last group only, and [None]
    is the failure the parser reports as invalid base64. *)
Fixpoint decode (c : bytes) : option bytes :=
  match c with
  | [] => Some []
  | c0 :: c1 :: c2 :: c3 :: rest =>
      match sextet_of_char c0, sextet_of_char c1 with
      | Some s0, Some s1 =>
          match rest with
          | [] =>
              if byte_eqb c3 pad then
                if byte_eqb c2 pad then Some [byte_of_N (octet0 s0 s1)]
                else
                  match sextet_of_char c2 with
                  | Some s2 =>
                      Some [byte_of_N (octet0 s0 s1); byte_of_N (octet1 s1 s2)]
                  | None => None
                  end
              else
                match sextet_of_char c2, sextet_of_char c3 with
                | Some s2, Some s3 =>
                    Some [byte_of_N (octet0 s0 s1); byte_of_N (octet1 s1 s2);
                          byte_of_N (octet2 s2 s3)]
                | _, _ => None
                end
          | _ :: _ =>
              match sextet_of_char c2, sextet_of_char c3, decode rest with
              | Some s2, Some s3, Some tail =>
                  Some (byte_of_N (octet0 s0 s1) :: byte_of_N (octet1 s1 s2)
                          :: byte_of_N (octet2 s2 s3) :: tail)
              | _, _, _ => None
              end
          end
      | _, _ => None
      end
  | _ => None
  end.

(** The characters the encoder may emit: [A-Za-z0-9+/=]. *)
Definition is_base64_char (c : byte) : bool :=
  let n := Byte.to_N c in
  ((65 <=? n) && (n <=? 90)) || ((97 <=? n) && (n <=? 122))
  || ((48 <=? n) && (n <=? 57)) || (n =? 43) || (n =? 47) || (n =? 61).

End Base64.

(** ** The expression tree *)

(** Modelled from the spec: the variant tags of the absent
    [ExpressionType.h]. *)
Inductive WexprExpressionType :=
| WexprExpressionTypeInvalid
| WexprExpressionTypeNull
| WexprExpressionTypeValue
| WexprExpressionTypeBinaryData
| WexprExpressionTypeArray
| WexprExpressionTypeMap.

(** Modelled from the spec: the tagged value [struct WexprExpression] of the
    absent [Expression.c].  A map is its ordered list of pairs; the key index
    is a function of that list and is not represented.  The parse-time
    reference variant never outlives a parse and lives in the parser's
    reference table instead. *)
Inductive Expression :=
| Invalid
| Null
| Value (v : bytes)
| BinaryData (d : bytes)
| Array (items : list Expression)
| Map (pairs : list (bytes * Expression)).

Definition wexpr_Expression_type (self : Expression) : WexprExpressionType :=
  match self with
  | Invalid => WexprExpressionTypeInvalid
  | Null => WexprExpressionTypeNull
  | Value _ => WexprExpressionTypeValue
  | BinaryData _ => WexprExpressionTypeBinaryData
  | Array _ => WexprExpressionTypeArray
  | Map _ => WexprExpressionTypeMap
  end.

(** Modelled from the spec: the accessors declared in [Expression.h], whose
    bodies ([Expression.c]) are absent.  Each follows the contract written at
    its declaration; a pointer result is an [option], [None] being the null
    pointer. *)

(** [Expression.h]: "Return the value of the expression.  Will return null if
    not a value." *)
Definition wexpr_Expression_value (self : Expression) : option bytes :=
  match self with
  | Value v => Some v
  | _ => None
  end.

(** [Expression.h]: "Return the data of the expression.  Will return null if
    not a binary data." *)
Definition wexpr_Expression_binaryData_data (self : Expression) : option bytes :=
  match self with
  | BinaryData d => Some d
  | _ => None
  end.

(** [Expression.h]: "Return the buffer size of the expression.  Will return 0
    if not binary data." *)
Definition wexpr_Expression_binaryData_size (self : Expression) : N :=
  match self with
  | BinaryData d => N.of_nat (List.length d)
  | _ => 0
  end.

(** [Expression.h]: "Return the number of expressions in the array.  Returns
    0 if not an array." *)
Definition wexpr_Expression_arrayCount (self : Expression) : N :=
  match self with
  | Array items => N.of_nat (List.length items)
  | _ => 0
  end.

(** [Expression.h]: "Return the expression at the given index.  ... The
    expression or NULL if invalid." *)
Definition wexpr_Expression_arrayAt (self : Expression) (index : N)
  : option Expression :=
  match self with
  | Array items => nth_error items (N.to_nat index)
  | _ => None
  end.

(** [Expression.h]: "Return the number of key-value pairs in the map.
    Returns 0 if not a map." *)
Definition wexpr_Expression_mapCount (self : Expression) : N :=
  match self with
  | Map pairs => N.of_nat (List.length pairs)
  | _ => 0
  end.

(** [Expression.h]: "Return the key at a given index within the map." *)
Definition wexpr_Expression_mapKeyAt (self : Expression) (index : N)
  : option bytes :=
  match self with
  | Map pairs => option_map fst (nth_error pairs (N.to_nat index))
  | _ => None
  end.

(** [Expression.h]: "Return the value at a given index within the map." *)
Definition wexpr_Expression_mapValueAt (self : Expression) (index : N)
  : option Expression :=
  match self with
  | Map pairs => option_map snd (nth_error pairs (N.to_nat index))
  | _ => None
  end.

Fixpoint lookup {A : Type} (key : bytes) (pairs : list (bytes * A)) : option A :=
  match pairs with
  | [] => None
  | (k, v) :: rest => if bytes_eqb key k then Some v else lookup key rest
  end.

(** [Expression.h]: "Return the value for a given key within the map, or
    NULL if not found." *)
Definition wexpr_Expression_mapValueForKey (self : Expression) (key : bytes)
  : option Expression :=
  match self with
  | Map pairs => lookup key pairs
  | _ => None
  end.

(** ** The textual parser *)

Module Parser.

Definition is_whitespace (c : byte) : bool :=
  byte_eqb c x20 || byte_eqb c x09 || byte_eqb c x0d || byte_eqb c x0a.

(** The reserved set: parentheses, hash, at, double quote, angle brackets,
    semicolon, square brackets and star. *)
Definition is_reserved (c : byte) : bool :=
  existsb (byte_eqb c) (text "()#@" ++ [x22] ++ text "<>;[]*").

Fixpoint starts_with (prefix s : bytes) : bool :=
  match prefix, s with
  | [], _ => true
  | p :: prefix', c :: s' => byte_eqb p c && starts_with prefix' s'
  | _ :: _, [] => false
  end.

(** What follows the end of the current line. *)
Fixpoint after_line (s : bytes) : bytes :=
  match s with
  | [] => []
  | c :: s' => if byte_eqb c x0a then s' else after_line s'
  end.

(** What follows the first [--)]; nothing when the comment is not closed. *)
Fixpoint after_block (s : bytes) : bytes :=
  match s with
  | [] => []
  | _ :: s' => if starts_with (text "--)") s then skipn 3 s else after_block s'
  end.

(** Whitespace, line comments [;...] and block comments [;(-- ... --)]
    are ignored between tokens. *)
Fixpoint skip_trivia_for (fuel : nat) (s : bytes) : bytes :=
  match fuel, s with
  | S fuel', c :: s' =>
      if is_whitespace c then skip_trivia_for fuel' s'
      else if byte_eqb c x3b then
        if starts_with (text "(--") s'
        then skip_trivia_for fuel' (after_block (skipn 3 s'))
        else skip_trivia_for fuel' (after_line s')
      else s
  | _, _ => s
  end.

Definition skip_trivia (s : bytes) : bytes := skip_trivia_for (List.length s) s.

(** The text before the first [stop] and the text after it. *)
Fixpoint split_at (stop : byte) (s : bytes) : option (bytes * bytes) :=
  match s with
  | [] => None
  | c :: s' =>
      if byte_eqb c stop then Some ([], s')
      else match split_at stop s' with
           | Some (before, after) => Some (c :: before, after)
           | None => None
           end
  end.

(** The maximal run of atom characters and what follows it. *)
Fixpoint take_atom (s : bytes) : bytes * bytes :=
  match s with
  | [] => ([], [])
  | c :: s' =>
      if is_whitespace c || is_reserved c then ([], s)
      else let '(atom, rest) := take_atom s' in (c :: atom, rest)
  end.

(** A parse step: a result, a failure with its kind and the number of
    bytes that were still unread, or recursion cut short (which the fuel
    [document] grants rules out). *)
Inductive Parsed (A : Type) :=
| Ok (a : A)
| Failed (kind : WexprErrorCode) (unread : nat)
| Exhausted.
Arguments Ok {A} a.
Arguments Failed {A} kind unread.
Arguments Exhausted {A}.

(** The body of a quoted string, after the opening quote. *)
Fixpoint quoted (s : bytes) : Parsed (bytes * bytes) :=
  match s with
  | [] => Failed WexprErrorCodeStringMissingEndingQuote 0
  | c :: s' =>
      if byte_eqb c x22 then Ok ([], s')
      else if byte_eqb c x5c then
        match s' with
        | [] => Failed WexprErrorCodeStringMissingEndingQuote 0
        | e :: s'' =>
            let unescaped :=
              if byte_eqb e x22 then Some x22
              else if byte_eqb e x5c then Some x5c
              else if byte_eqb e x6e then Some x0a
              else if byte_eqb e x74 then Some x09
              else None in
            match unescaped with
            | None => Failed WexprErrorCodeInvalidStringEscape (List.length s')
            | Some u =>
                match quoted s'' with
                | Ok (v, rest) => Ok (u :: v, rest)
                | Failed k n => Failed k n
                | Exhausted => Exhausted
                end
            end
        end
      else
        match quoted s' with
        | Ok (v, rest) => Ok (c :: v, rest)
        | Failed k n => Failed k n
        | Exhausted => Exhausted
        end
  end.

(** The reference table of one parse call: names bound by [[name]]. *)
Definition References := list (bytes * Expression).

(** A pair joins a map unless its key is already there: "the first
    occurrence wins on conflict". *)
Definition add_pair (pairs : list (bytes * Expression)) (k : bytes)
    (v : Expression) : list (bytes * Expression) :=
  match lookup k pairs with
  | Some _ => pairs
  | None => pairs ++ [(k, v)]
  end.

(** [expression ::= refDecl? ( atom | quoted | null | binary | array | map
    | refUse )], on input that starts at a token.  Where no production
    applies (a closing bracket, a lone [#], [@] or [*]), the failure is
    reported as an empty token. *)
Fixpoint expression (fuel : nat) (refs : References) (s : bytes)
  : Parsed (Expression * References * bytes) :=
  match fuel with
  | O => Exhausted
  | S fuel' =>
      match s with
      | [] => Failed WexprErrorCodeEmptyString 0
      | c :: s' =>
          if byte_eqb c x23 then
            match s' with
            | p :: s'' =>
                if byte_eqb p x28 then array fuel' refs s'' []
                else Failed WexprErrorCodeEmptyString (List.length s)
            | [] => Failed WexprErrorCodeEmptyString (List.length s)
            end
          else if byte_eqb c x40 then
            match s' with
            | p :: s'' =>
                if byte_eqb p x28 then map fuel' refs s'' []
                else Failed WexprErrorCodeEmptyString (List.length s)
            | [] => Failed WexprErrorCodeEmptyString (List.length s)
            end
          else if byte_eqb c x22 then
            match quoted s' with
            | Ok (v, rest) => Ok (Value v, refs, rest)
            | Failed k n => Failed k n
            | Exhausted => Exhausted
            end
          else if byte_eqb c x3c then
            match split_at x3e s' with
            | None => Failed WexprErrorCodeBinaryDataNoEnding (List.length s)
            | Some (payload, rest) =>
                match Base64.decode payload with
                | Some d => Ok (BinaryData d, refs, rest)
                | None =>
                    Failed WexprErrorCodeBinaryDataInvalidBase64 (List.length s')
                end
            end
          else if byte_eqb c x5b then
            match split_at x5d s' with
            | None =>
                Failed WexprErrorCodeReferenceMissingEndBracket (List.length s)
            | Some (name, rest) =>
                match expression fuel' refs (skip_trivia rest) with
                | Ok (e, refs', rest') => Ok (e, (name, e) :: refs', rest')
                | other => other
                end
            end
          else if byte_eqb c x2a then
            match s' with
            | b :: s'' =>
                if byte_eqb b x5b then
                  match split_at x5d s'' with
                  | None =>
                      Failed WexprErrorCodeReferenceInsertMissingEnd (List.length s)
                  | Some (name, rest) =>
                      match lookup name refs with
                      | Some e => Ok (e, refs, rest)
                      | None =>
                          Failed WexprErrorCodeReferenceUnknownReference
                            (List.length s)
                      end
                  end
                else Failed WexprErrorCodeEmptyString (List.length s)
            | [] => Failed WexprErrorCodeEmptyString (List.length s)
            end
          else
            match take_atom s with
            | ([], _) => Failed WexprErrorCodeEmptyString (List.length s)
            | (atom, rest) =>
                if bytes_eqb atom (text "null") then Ok (Null, refs, rest)
                else Ok (Value atom, refs, rest)
            end
      end
  end

(** [array ::= '#(' ws? (expression ws?)* ')'], after the opener. *)
with array (fuel : nat) (refs : References) (s : bytes)
    (items : list Expression) : Parsed (Expression * References * bytes) :=
  match fuel with
  | O => Exhausted
  | S fuel' =>
      match skip_trivia s with
      | [] => Failed WexprErrorCodeArrayMissingEndParen 0
      | (c :: rest) as s1 =>
          if byte_eqb c x29 then Ok (Array items, refs, rest)
          else
            match expression fuel' refs s1 with
            | Ok (e, refs', rest') => array fuel' refs' rest' (items ++ [e])
            | other => other
            end
      end
  end

(** [map ::= '@(' ws? (key ws expression ws?)* ')'], after the opener.  A
    key that is not a Value, and a key without a value, are
    [MapKeyMustBeAValue]. *)
with map (fuel : nat) (refs : References) (s : bytes)
    (pairs : list (bytes * Expression))
  : Parsed (Expression * References * bytes) :=
  match fuel with
  | O => Exhausted
  | S fuel' =>
      match skip_trivia s with
      | [] => Failed WexprErrorCodeMapMissingEndParen 0
      | (c :: rest) as s1 =>
          if byte_eqb c x29 then Ok (Map pairs, refs, rest)
          else
            match expression fuel' refs s1 with
            | Ok (Value k, refs1, rest1) =>
                match skip_trivia rest1 with
                | [] => Failed WexprErrorCodeMapMissingEndParen 0
                | (c2 :: _) as s2 =>
                    if byte_eqb c2 x29
                    then Failed WexprErrorCodeMapKeyMustBeAValue (List.length s2)
                    else
                      match expression fuel' refs1 s2 with
                      | Ok (v, refs2, rest2) =>
                          map fuel' refs2 rest2 (add_pair pairs k v)
                      | other => other
                      end
                end
            | Ok (_, _, _) =>
                Failed WexprErrorCodeMapKeyMustBeAValue (List.length s1)
            | other => other
            end
      end
  end.

(** [document ::= ws? expression ws? EOF].  A document without any token
    is the Invalid expression and no error. *)
Definition document (input : bytes) : Parsed Expression :=
  match skip_trivia input with
  | [] => Ok Invalid
  | s =>
      match expression (2 * List.length input + 2) [] s with
      | Ok (e, _, rest) =>
          match skip_trivia rest with
          | [] => Ok e
          | extra =>
              Failed WexprErrorCodeExtraDataAfterParsingRoot (List.length extra)
          end
      | Failed k n => Failed k n
      | Exhausted => Exhausted
      end
  end.

(** The 1-based line and column of the byte at [offset]: "scanning
    newlines from the input start to the byte offset of the failure". *)
Fixpoint position (s : bytes) (offset : nat) (l c : N) : N * N :=
  match offset, s with
  | S offset', b :: s' =>
      if byte_eqb b x0a then position s' offset' (l + 1) 1
      else position s' offset' l (c + 1)
  | _, _ => (l, c)
  end.

(** The specification fixes no message texts; each kind has one here. *)
Definition describe (k : WexprErrorCode) : string :=
  match k with
  | WexprErrorCodeNone => ""
  | WexprErrorCodeInvalidUTF8 => "Invalid UTF-8"
  | WexprErrorCodeStringMissingEndingQuote => "String is missing its ending quote"
  | WexprErrorCodeInvalidStringEscape => "Invalid escape in string"
  | WexprErrorCodeMapKeyMustBeAValue => "Map key must be a value"
  | WexprErrorCodeMapNoValue => "Map key has no value"
  | WexprErrorCodeMapMissingEndParen => "Map is missing its ending paren"
  | WexprErrorCodeArrayMissingEndParen => "Array is missing its ending paren"
  | WexprErrorCodeReferenceMissingEndBracket => "Reference is missing its ending bracket"
  | WexprErrorCodeReferenceInsertMissingEnd => "Reference insert is missing its ending bracket"
  | WexprErrorCodeReferenceUnknownReference => "Unknown reference"
  | WexprErrorCodeBinaryDataNoEnding => "Binary data has no ending"
  | WexprErrorCodeBinaryDataInvalidBase64 => "Binary data is not valid base64"
  | WexprErrorCodeExtraDataAfterParsingRoot => "Extra data after parsing the root expression"
  | WexprErrorCodeEmptyString => "Empty string"
  | WexprErrorCodeBinaryInvalidHeader => "Invalid binary header"
  | WexprErrorCodeBinaryUnknownVersion => "Unknown binary version"
  | WexprErrorCodeBinaryMultipleExpressions => "Multiple expression chunks"
  | WexprErrorCodeBinaryChunkOverflow => "Chunk overflows its buffer"
  | WexprErrorCodeBinaryUnknownType => "Unknown chunk type"
  | WexprErrorCodeBinaryChunkNotMap => "Chunk is not a map"
  end.

Definition error_at (input : bytes) (k : WexprErrorCode) (unread : nat)
  : WexprError :=
  let '(l, c) := position input (List.length input - unread) 1 1 in
  {| code := k; message := describe k; line := l; column := c |}.

(** Modelled from the spec: [wexpr_Expression_createFromLengthString] of
    the absent [Expression.c], with the flag None.  The first error aborts
    and returns null. *)
Definition wexpr_Expression_createFromLengthString (str : bytes) (length : N)
    (error : WexprError) : option Expression * WexprError :=
  let input := firstn (N.to_nat length) str in
  match document input with
  | Ok e => (Some e, error)
  | Failed k n => (None, error_at input k n)
  | Exhausted => (None, error)
  end.

End Parser.

(** ** The textual writer *)

Module Writer.

(** A string is quoted "only if [it contains] a reserved or whitespace
    character or [is] empty". *)
Definition needs_quotes (v : bytes) : bool :=
  match v with
  | [] => true
  | _ => existsb (fun c => Parser.is_reserved c || Parser.is_whitespace c) v
  end.

(** Inside quotes, a quote and a backslash are written escaped. *)
Definition escape (v : bytes) : bytes :=
  flat_map (fun c => if byte_eqb c x22 || byte_eqb c x5c then [x5c; c] else [c]) v.

Definition write_string (v : bytes) : bytes :=
  if needs_quotes v then [x22] ++ escape v ++ [x22] else v.

Definition tabs (n : nat) : bytes := repeat x09 n.

(** Minified: tokens separated by a single space.  Human-readable: openers
    followed by a newline, one element or pair per line at one more tab,
    closers on a line of their own at the outer indent.  The specification
    gives no text for Invalid; nothing is written for it. *)
Fixpoint write (human : bool) (indent : nat) (self : Expression) : bytes :=
  match self with
  | Invalid => []
  | Null => text "null"
  | Value v => write_string v
  | BinaryData d => [x3c] ++ Base64.encode d ++ [x3e]
  | Array items =>
      if human then
        text "#(" ++ [x0a]
          ++ flat_map (fun e => tabs (S indent) ++ write human (S indent) e ++ [x0a])
               items
          ++ tabs indent ++ text ")"
      else
        text "#(" ++ flat_map (fun e => text " " ++ write human indent e) items
          ++ text " )"
  | Map pairs =>
      if human then
        text "@(" ++ [x0a]
          ++ flat_map (fun p => tabs (S indent) ++ write_string (fst p) ++ text " "
                                  ++ write human (S indent) (snd p) ++ [x0a])
               pairs
          ++ tabs indent ++ text ")"
      else
        text "@("
          ++ flat_map (fun p => text " " ++ write_string (fst p) ++ text " "
                                  ++ write human indent (snd p))
               pairs
          ++ text " )"
  end.

(** Modelled from the spec: [wexpr_Expression_createStringRepresentation]
    of the absent [Expression.c]. *)
Definition wexpr_Expression_createStringRepresentation (self : Expression)
    (indent : N) (flags : WexprWriteFlags) : bytes :=
  write (match flags with
         | WexprWriteFlagHumanReadable => true
         | WexprWriteFlagNone => false
         end) (N.to_nat indent) self.

End Writer.

(** ** The binary chunk codec *)

Module Binary.

(** A 32-bit value as four bytes, most significant first. *)
Definition big_endian (n : N) : bytes :=
  [byte_of_N (N.shiftr n 24); byte_of_N (N.shiftr n 16);
   byte_of_N (N.shiftr n 8); byte_of_N n].

(** A chunk: size, type, payload.  The size counts the payload, as the
    driver's framing ([curPos += 5; curPos += size]) has it. *)
Definition chunk (type : byte) (payload : bytes) : bytes :=
  big_endian (N.of_nat (List.length payload)) ++ [type] ++ payload.

(** Modelled from the spec: [wexpr_Expression_createBinaryRepresentation]
    of the absent [Expression.c]. *)
Fixpoint encode (self : Expression) : bytes :=
  match self with
  | Invalid | Null => chunk x00 []
  | Value v => chunk x01 v
  | Array items => chunk x02 (flat_map encode items)
  | Map pairs =>
      chunk x03 (flat_map (fun p => chunk x01 (fst p) ++ encode (snd p)) pairs)
  | BinaryData d => chunk x04 d
  end.

Inductive Decoded (A : Type) :=
| Ok (a : A)
| Failed (kind : WexprErrorCode)
| Exhausted.
Arguments Ok {A} a.
Arguments Failed {A} kind.
Arguments Exhausted {A}.

(** The key/value pairs of a map payload's children. *)
Fixpoint pair_up (children : list Expression)
  : option (list (bytes * Expression)) :=
  match children with
  | [] => Some []
  | Value k :: v :: rest =>
      match pair_up rest with
      | Some pairs => Some ((k, v) :: pairs)
      | None => None
      end
  | _ => None
  end.

(** One chunk at the head of [data], and the bytes after it. *)
Fixpoint decode_chunk (fuel : nat) (data : bytes)
  : Decoded (Expression * bytes) :=
  match fuel with
  | O => Exhausted
  | S fuel' =>
      match data with
      | b0 :: b1 :: b2 :: b3 :: type :: body =>
          let size := N.to_nat (uint32_of_big_endian b0 b1 b2 b3) in
          if Nat.ltb (List.length body) size
          then Failed WexprErrorCodeBinaryChunkOverflow
          else
            let payload := firstn size body in
            let rest := skipn size body in
            match Byte.to_N type with
            | 0 => Ok (Null, rest)
            | 1 => Ok (Value payload, rest)
            | 2 =>
                match decode_children fuel' payload with
                | Ok items => Ok (Array items, rest)
                | Failed k => Failed k
                | Exhausted => Exhausted
                end
            | 3 =>
                match decode_children fuel' payload with
                | Ok children =>
                    match pair_up children with
                    | Some pairs => Ok (Map pairs, rest)
                    | None => Failed WexprErrorCodeBinaryChunkNotMap
                    end
                | Failed k => Failed k
                | Exhausted => Exhausted
                end
            | 4 => Ok (BinaryData payload, rest)
            | _ => Failed WexprErrorCodeBinaryUnknownType
            end
      | _ => Failed WexprErrorCodeBinaryChunkOverflow
      end
  end

(** The chunks a payload is the concatenation of. *)
with decode_children (fuel : nat) (data : bytes) : Decoded (list Expression) :=
  match fuel with
  | O => Exhausted
  | S fuel' =>
      match data with
      | [] => Ok []
      | _ =>
          match decode_chunk fuel' data with
          | Ok (e, rest) =>
              match decode_children fuel' rest with
              | Ok es => Ok (e :: es)
              | other => other
              end
          | Failed k => Failed k
          | Exhausted => Exhausted
          end
      end
  end.

(** Modelled from the spec: [wexpr_Expression_createFromBinaryChunk] of the
    absent [Expression.c].  Its errors carry line 0 and column 0. *)
Definition wexpr_Expression_createFromBinaryChunk (data : bytes) (length : N)
    (error : WexprError) : option Expression * WexprError :=
  let input := firstn (N.to_nat length) data in
  match decode_chunk (2 * List.length input + 2) input with
  | Ok (e, _) => (Some e, error)
  | Failed k =>
      (None, {| code := k; message := Parser.describe k; line := 0; column := 0 |})
  | Exhausted => (None, error)
  end.

End Binary.

(** The library, put together for the driver. *)
#[export] Instance specLibrary : WexprLibrary := {|
  WexprExpression := Expression;
  wexpr_Version_major := 1;
  wexpr_Version_minor := 0;
  wexpr_Version_patch := 0;
  wexpr_Expression_createFromBinaryChunk := Binary.wexpr_Expression_createFromBinaryChunk;
  wexpr_Expression_createFromLengthString := Parser.wexpr_Expression_createFromLengthString;
  wexpr_Expression_createStringRepresentation := Writer.wexpr_Expression_createStringRepresentation;
  wexpr_Expression_createBinaryRepresentation := Binary.encode
|}.

Definition littleEndianHost : Host := {| endianness := LittleEndian |}.
Definition bigEndianHost : Host := {| endianness := BigEndian |}.

(** ** Notions the driver's properties are stated with *)

(** The header of a binary file this version accepts. *)
Definition validHeader : bytes := magic ++ [x00; x00; x00; x01] ++ reserved.

(** A [std::string] holds fewer than [2^63] bytes ([max_size()]), so an
    offset into it plus a chunk's declared size stays below [2^64]. *)
Definition fits (input : bytes) : Prop := N.of_nat (List.length input) < 2 ^ 63.

(** The byte at [i] of the input, 0 past its end. *)
Definition byte_at (input : bytes) (i : nat) : byte := nth i input x00.

(** The big-endian 32-bit value at offset 8. *)
Definition version_field (input : bytes) : N :=
  uint32_of_big_endian (byte_at input 8) (byte_at input 9) (byte_at input 10)
    (byte_at input 11).

(** The declared size of the chunk at [pos]: the big-endian value of its
    first four bytes. *)
Definition declared_size (input : bytes) (pos : N) : option N :=
  match read_uint8 input pos, read_uint8 input (pos + 1),
        read_uint8 input (pos + 2), read_uint8 input (pos + 3) with
  | Some b0, Some b1, Some b2, Some b3 => Some (uint32_of_big_endian b0 b1 b2 b3)
  | _, _, _, _ => None
  end.

(** The type code of the chunk at [pos]: its fifth byte. *)
Definition type_code (input : bytes) (pos : N) : option N :=
  option_map Byte.to_N (read_uint8 input (pos + 4)).

Section DriverNotions.
Context `{Host} `{WexprLibrary}.

(** The variables with which the chunk loop is entered. *)
Definition scan_start : Scan :=
  {| curPos := 20; expr := None; err := WEXPR_ERROR_INIT |}.

(** [arrives input s]: the chunk loop over [input] comes to its test with
    the variables [s]. *)
Inductive arrives (input : bytes) : Scan -> Prop :=
| arrives_start : arrives input scan_start
| arrives_next (s s' : Scan) :
    arrives input s ->
    curPos s < N.of_nat (List.length input) ->
    scan_body input s = Continue s' ->
    arrives input s'.

(** What a run in the normal flow does once an error is recorded. *)
Definition reports (r : Results) (e : WexprError) : Run :=
  match command r with
  | CommandValidate =>
      {| events := [Output (outputPath r) (text "false" ++ [x0a])];
         status := EXIT_FAILURE |}
  | _ =>
      {| events := [Stderr "WexprTool: Error occurred with wexpr:";
                    Stderr (errorLine r e)];
         status := EXIT_FAILURE |}
  end.

(** The flags and the command select the normal flow of [main]. *)
Definition normal_flow (r : Results) : Prop :=
  version r = false /\ help r = false /\ command r <> CommandUnknown.

(** An error, when set, carries line 0 and column 0. *)
Definition unpositioned (e : WexprError) : Prop :=
  code_is_set (code e) = true -> line e = 0 /\ column e = 0.

(** Modelled from the spec: what [wexpr_Expression_createFromBinaryChunk]
    of the absent [Expression.c] leaves in the error structure it is
    handed, "[line] and [column] are zero for binary-path errors". *)
Definition decoder_errors_unpositioned : Prop :=
  forall (data : bytes) (length : N) (e0 e1 : WexprError)
         (x : option WexprExpression),
    unpositioned e0 ->
    wexpr_Expression_createFromBinaryChunk data length e0 = (x, e1) ->
    unpositioned e1.

End DriverNotions.

(** ** Checking a property of small numbers by computation *)

(** [p] holds of every number below [n]. *)
Fixpoint below (n : nat) (p : N -> bool) : bool :=
  match n with
  | O => true
  | S k => p (N.of_nat k) && below k p
  end.

(** ** Sample inputs *)

(** A Null chunk, and an auxiliary chunk of type 9 with one byte. *)
Definition nullChunk : bytes := [x00; x00; x00; x00; x00].
Definition auxChunk : bytes := [x00; x00; x00; x01; x09; xff].

Definition miniFromStdin : Results :=
  {| version := false; help := false; command := CommandMini;
     inputPath := "-"; outputPath := "-" |}.

Definition validateFromStdin : Results :=
  {| version := false; help := false; command := CommandValidate;
     inputPath := "-"; outputPath := "-" |}.

(** ** The chunks of a binary file *)

(** A chunk as the loop of [main] reads it: a type code and a payload, framed
    by the payload's size in four big-endian bytes. *)
Definition Chunk : Type := (byte * bytes)%type.

Definition frame (c : Chunk) : bytes := Binary.chunk (fst c) (snd c).

Definition frames (chunks : list Chunk) : bytes := flat_map frame chunks.

(** The payload's size fits the 32-bit size field. *)
Definition sized (c : Chunk) : Prop := N.of_nat (List.length (snd c)) < 2 ^ 32.

(** The type code marks an expression chunk: [type <= 0x04]. *)
Definition is_expression_chunk (c : Chunk) : bool := Byte.to_N (fst c) <=? 4.

Section ChunkView.
Context `{Host} `{WexprLibrary}.

(** The chunk loop told chunk by chunk, from the expression and the error it
    has so far: a chunk of another type is passed over; an expression chunk
    is decoded from where it starts, unless an expression is there already,
    which ends the loop with BinaryMultipleExpressions. *)
Fixpoint over_chunks (chunks : list Chunk) (built : option WexprExpression)
    (error : WexprError) : option WexprExpression * WexprError :=
  match chunks with
  | [] => (built, error)
  | c :: rest =>
      if is_expression_chunk c then
        match built with
        | Some _ =>
            (built, binaryError WexprErrorCodeBinaryMultipleExpressions
                      "Found multiple expression chunks")
        | None =>
            let '(e, error') :=
              wexpr_Expression_createFromBinaryChunk (frames chunks)
                (N.of_nat (List.length (snd c)) + 5) error in
            over_chunks rest e error'
        end
      else over_chunks rest built error
  end.

End ChunkView.

(** A library that differs from [L] in its text parser only, and one that
    differs in its chunk decoder only. *)
Definition with_parser (L : WexprLibrary)
    (parser : bytes -> N -> WexprError
              -> option (@WexprExpression L) * WexprError) : WexprLibrary :=
  {| WexprExpression := @WexprExpression L;
     wexpr_Version_major := @wexpr_Version_major L;
     wexpr_Version_minor := @wexpr_Version_minor L;
     wexpr_Version_patch := @wexpr_Version_patch L;
     wexpr_Expression_createFromBinaryChunk :=
       @wexpr_Expression_createFromBinaryChunk L;
     wexpr_Expression_createFromLengthString := parser;
     wexpr_Expression_createStringRepresentation :=
       @wexpr_Expression_createStringRepresentation L;
     wexpr_Expression_createBinaryRepresentation :=
       @wexpr_Expression_createBinaryRepresentation L |}.

Definition with_decoder (L : WexprLibrary)
    (decoder : bytes -> N -> WexprError
               -> option (@WexprExpression L) * WexprError) : WexprLibrary :=
  {| WexprExpression := @WexprExpression L;
     wexpr_Version_major := @wexpr_Version_major L;
     wexpr_Version_minor := @wexpr_Version_minor L;
     wexpr_Version_patch := @wexpr_Version_patch L;
     wexpr_Expression_createFromBinaryChunk := decoder;
     wexpr_Expression_createFromLengthString :=
       @wexpr_Expression_createFromLengthString L;
     wexpr_Expression_createStringRepresentation :=
       @wexpr_Expression_createStringRepresentation L;
     wexpr_Expression_createBinaryRepresentation :=
       @wexpr_Expression_createBinaryRepresentation L |}.

(** Sample chunks: an auxiliary chunk of type 9, a Null chunk, and an Array
    chunk whose only child has the unknown type 9. *)
Definition auxOne : Chunk := (x09, [xff]).
Definition nullOne : Chunk := (x00, []).
Definition brokenArray : Chunk := (x02, [x00; x00; x00; x00; x09]).

(** A parser and a decoder that accept nothing. *)
Definition refuseAll (data : bytes) (length : N) (error : WexprError)
  : option Expression * WexprError := (None, error).

Definition binaryFromStdin : Results :=
  {| version := false; help := false; command := CommandBinary;
     inputPath := "-"; outputPath := "-" |}.

(** * Properties *)

(** ** Machine integers *)

Lemma land_shifted_low (a k b : N) : b < 2 ^ k -> N.land (a * 2 ^ k) b = 0.
Proof.
  intros Hb. apply N.bits_inj. intros n. rewrite N.land_spec, N.bits_0.
  destruct (N.ltb_spec n k) as [Hn | Hn].
  - now rewrite N.mul_pow2_bits_low.
  - destruct (N.eq_dec b 0) as [-> | Hnz].
    + now rewrite N.bits_0, andb_false_r.
    + rewrite (N.bits_above_log2 b n), andb_false_r; [reflexivity |].
      apply N.log2_lt_pow2; [lia |].
      apply N.lt_le_trans with (2 ^ k); [assumption |].
      apply N.pow_le_mono_r; lia.
Qed.

Lemma lor_shiftl_add (a k b : N) :
  b < 2 ^ k -> N.lor (N.shiftl a k) b = a * 2 ^ k + b.
Proof.
  intros Hb. rewrite N.shiftl_mul_pow2.
  rewrite <- N.lxor_lor by now apply land_shifted_low.
  symmetry. apply N.add_nocarry_lxor. now apply land_shifted_low.
Qed.

Lemma byte_range (b : byte) : Byte.to_N b < 256.
Proof. pose proof (Byte.to_N_bounded b). lia. Qed.

Lemma uint32_of_big_endian_sum (b0 b1 b2 b3 : byte) :
  uint32_of_big_endian b0 b1 b2 b3
  = Byte.to_N b0 * 16777216 + Byte.to_N b1 * 65536 + Byte.to_N b2 * 256
    + Byte.to_N b3.
Proof.
  unfold uint32_of_big_endian.
  pose proof (byte_range b0). pose proof (byte_range b1).
  pose proof (byte_range b2). pose proof (byte_range b3).
  rewrite (lor_shiftl_add _ 8) by (change (2 ^ 8) with 256; lia).
  rewrite (lor_shiftl_add _ 16) by (change (2 ^ 8) with 256; change (2 ^ 16) with 65536; lia).
  rewrite (lor_shiftl_add _ 24)
    by (change (2 ^ 8) with 256; change (2 ^ 16) with 65536;
        change (2 ^ 24) with 16777216; lia).
  change (2 ^ 8) with 256; change (2 ^ 16) with 65536;
    change (2 ^ 24) with 16777216. lia.
Qed.

Lemma uint32_of_big_endian_range (b0 b1 b2 b3 : byte) :
  uint32_of_big_endian b0 b1 b2 b3 < 2 ^ 32.
Proof.
  rewrite uint32_of_big_endian_sum.
  pose proof (byte_range b0). pose proof (byte_range b1).
  pose proof (byte_range b2). pose proof (byte_range b3).
  change (2 ^ 32) with 4294967296. lia.
Qed.

Lemma bswap32_sum (x : N) :
  bswap32 x
  = (x mod 256) * 16777216 + (x / 256 mod 256) * 65536
    + (x / 65536 mod 256) * 256 + x / 16777216 mod 256.
Proof.
  unfold bswap32. change 255 with (N.ones 8).
  rewrite !N.land_ones, !N.shiftr_div_pow2.
  change (2 ^ 8) with 256; change (2 ^ 16) with 65536;
    change (2 ^ 24) with 16777216.
  assert (Hm : forall y, y mod 256 < 256) by (intros; apply N.mod_lt; lia).
  pose proof (Hm x). pose proof (Hm (x / 256)). pose proof (Hm (x / 65536)).
  pose proof (Hm (x / 16777216)).
  rewrite (lor_shiftl_add _ 8) by (change (2 ^ 8) with 256; lia).
  rewrite (lor_shiftl_add _ 16) by (change (2 ^ 8) with 256; change (2 ^ 16) with 65536; lia).
  rewrite (lor_shiftl_add _ 24)
    by (change (2 ^ 8) with 256; change (2 ^ 16) with 65536;
        change (2 ^ 24) with 16777216; lia).
  change (2 ^ 8) with 256; change (2 ^ 16) with 65536;
    change (2 ^ 24) with 16777216. lia.
Qed.

Lemma base256_digits (a b c d : N) :
  a < 256 -> b < 256 -> c < 256 -> d < 256 ->
  let x := d * 16777216 + c * 65536 + b * 256 + a in
  x mod 256 = a /\ x / 256 mod 256 = b /\ x / 65536 mod 256 = c
  /\ x / 16777216 mod 256 = d.
Proof.
  intros Ha Hb Hc Hd x. subst x.
  assert (H1 : (d * 16777216 + c * 65536 + b * 256 + a) / 256
               = d * 65536 + c * 256 + b)
    by (symmetry; apply (N.div_unique _ _ _ a); lia).
  assert (H2 : (d * 16777216 + c * 65536 + b * 256 + a) / 65536
               = d * 256 + c)
    by (symmetry; apply (N.div_unique _ _ _ (b * 256 + a)); lia).
  assert (H3 : (d * 16777216 + c * 65536 + b * 256 + a) / 16777216 = d)
    by (symmetry; apply (N.div_unique _ _ _ (c * 65536 + b * 256 + a)); lia).
  rewrite H1, H2, H3. repeat split; symmetry.
  - apply (N.mod_unique _ _ (d * 65536 + c * 256 + b)); lia.
  - apply (N.mod_unique _ _ (d * 256 + c)); lia.
  - apply (N.mod_unique _ _ d); lia.
  - apply (N.mod_unique _ _ 0); lia.
Qed.

Section HostOrder.
Context `{Host}.

(** Reading four bytes in host order and converting from big-endian gives
    the big-endian value of the bytes, on either kind of host. *)
Lemma bigUInt32ToNative_of_bytes (b0 b1 b2 b3 : byte) :
  wexpr_bigUInt32ToNative (uint32_of_bytes b0 b1 b2 b3)
  = uint32_of_big_endian b0 b1 b2 b3.
Proof.
  unfold wexpr_bigUInt32ToNative, uint32_of_bytes.
  destruct endianness; [| reflexivity].
  change (N.lor (N.shiftl (Byte.to_N b3) 24)
            (N.lor (N.shiftl (Byte.to_N b2) 16)
               (N.lor (N.shiftl (Byte.to_N b1) 8) (Byte.to_N b0))))
    with (uint32_of_big_endian b3 b2 b1 b0).
  rewrite bswap32_sum, !uint32_of_big_endian_sum.
  destruct (base256_digits (Byte.to_N b0) (Byte.to_N b1) (Byte.to_N b2)
              (Byte.to_N b3) (byte_range b0) (byte_range b1) (byte_range b2)
              (byte_range b3)) as (E0 & E1 & E2 & E3).
  rewrite E0, E1, E2, E3. lia.
Qed.

(** The version test of [main] compares the big-endian value of the four
    bytes with 1, on either kind of host. *)
Lemma version_test (b0 b1 b2 b3 : byte) :
  (uint32_of_bytes b0 b1 b2 b3 =? wexpr_uint32ToBig 1)
  = (uint32_of_big_endian b0 b1 b2 b3 =? 1).
Proof.
  unfold wexpr_uint32ToBig, uint32_of_bytes.
  destruct endianness; [| reflexivity].
  change (N.lor (N.shiftl (Byte.to_N b3) 24)
            (N.lor (N.shiftl (Byte.to_N b2) 16)
               (N.lor (N.shiftl (Byte.to_N b1) 8) (Byte.to_N b0))))
    with (uint32_of_big_endian b3 b2 b1 b0).
  change (bswap32 1) with 16777216.
  rewrite !uint32_of_big_endian_sum.
  pose proof (byte_range b0). pose proof (byte_range b1).
  pose proof (byte_range b2). pose proof (byte_range b3).
  destruct (N.eqb_spec (Byte.to_N b3 * 16777216 + Byte.to_N b2 * 65536
                        + Byte.to_N b1 * 256 + Byte.to_N b0) 16777216);
    destruct (N.eqb_spec (Byte.to_N b0 * 16777216 + Byte.to_N b1 * 65536
                          + Byte.to_N b2 * 256 + Byte.to_N b3) 1);
    try reflexivity; exfalso; lia.
Qed.

End HostOrder.

(** ** Bytes *)

Lemma byte_eqb_eq (a b : byte) : byte_eqb a b = true <-> a = b.
Proof.
  unfold byte_eqb. split.
  - apply Byte.byte_dec_bl.
  - apply Byte.byte_dec_lb.
Qed.

Lemma byte_eqb_refl (a : byte) : byte_eqb a a = true.
Proof. now apply byte_eqb_eq. Qed.

Lemma byte_eqb_neq (a b : byte) : byte_eqb a b = false <-> a <> b.
Proof.
  split.
  - intros E ->. rewrite byte_eqb_refl in E. discriminate.
  - intros N. destruct (byte_eqb a b) eqn:E; [| reflexivity].
    apply byte_eqb_eq in E. contradiction.
Qed.

Lemma bytes_eqb_eq (a b : bytes) : bytes_eqb a b = true <-> a = b.
Proof.
  revert b. induction a as [| x a IH]; intros [| y b]; simpl;
    try (split; [discriminate | congruence]); try tauto.
  rewrite andb_true_iff, byte_eqb_eq, IH. split.
  - intros [-> ->]. reflexivity.
  - intros E. injection E as -> ->. tauto.
Qed.

Lemma bytes_eqb_neq (a b : bytes) : bytes_eqb a b = false <-> a <> b.
Proof.
  rewrite <- bytes_eqb_eq. destruct (bytes_eqb a b); split; congruence.
Qed.

(** ** Reading the buffer *)

Lemma buffer_length (input : bytes) :
  List.length (buffer input) = S (List.length input).
Proof. unfold buffer. rewrite length_app. simpl. lia. Qed.

Lemma read_uint8_inside (input : bytes) (i : N) :
  i <= N.of_nat (List.length input) -> exists b, read_uint8 input i = Some b.
Proof.
  intros Hi. unfold read_uint8.
  destruct (nth_error (buffer input) (N.to_nat i)) as [b |] eqn:E.
  - now exists b.
  - apply nth_error_None in E. rewrite buffer_length in E. lia.
Qed.

Lemma read_uint8_bound (input : bytes) (i : N) (b : byte) :
  read_uint8 input i = Some b -> i <= N.of_nat (List.length input).
Proof.
  unfold read_uint8. intros E.
  assert (Hlt : (N.to_nat i < List.length (buffer input))%nat)
    by (apply nth_error_Some; congruence).
  rewrite buffer_length in Hlt. lia.
Qed.

Lemma declared_size_inside (input : bytes) (pos : N) :
  pos + 3 <= N.of_nat (List.length input) ->
  exists n, declared_size input pos = Some n.
Proof.
  intros Hp. unfold declared_size.
  destruct (read_uint8_inside input pos) as [b0 ->]; [lia |].
  destruct (read_uint8_inside input (pos + 1)) as [b1 ->]; [lia |].
  destruct (read_uint8_inside input (pos + 2)) as [b2 ->]; [lia |].
  destruct (read_uint8_inside input (pos + 3)) as [b3 ->]; [lia |].
  eexists. reflexivity.
Qed.

Lemma declared_size_range (input : bytes) (pos n : N) :
  declared_size input pos = Some n -> n < 2 ^ 32.
Proof.
  unfold declared_size.
  destruct (read_uint8 input pos); [| discriminate].
  destruct (read_uint8 input (pos + 1)); [| discriminate].
  destruct (read_uint8 input (pos + 2)); [| discriminate].
  destruct (read_uint8 input (pos + 3)); [| discriminate].
  intros [= <-]. apply uint32_of_big_endian_range.
Qed.

Lemma size_t_add_small (a b : N) : a + b < 2 ^ 64 -> size_t_add a b = a + b.
Proof. intros Hs. unfold size_t_add, SIZE_MAX_succ. now apply N.mod_small. Qed.

Section Scanning.
Context `{Host} `{WexprLibrary}.

(** The size [main] computes for the chunk at [pos] is its declared size,
    whatever the host's byte order. *)
Lemma native_size (input : bytes) (pos : N) :
  option_map wexpr_bigUInt32ToNative (read_uint32 input pos)
  = declared_size input pos.
Proof.
  unfold read_uint32, declared_size.
  destruct (read_uint8 input pos); [| reflexivity].
  destruct (read_uint8 input (pos + 1)); [| reflexivity].
  destruct (read_uint8 input (pos + 2)); [| reflexivity].
  destruct (read_uint8 input (pos + 3)); [| reflexivity].
  simpl. now rewrite bigUInt32ToNative_of_bytes.
Qed.

(** The loop body, by the chunk it finds: readable or not, its type code,
    and whether an expression is already there. *)
Lemma scan_body_cases (input : bytes) (s : Scan) (n t : N) :
  fits input ->
  curPos s < N.of_nat (List.length input) ->
  declared_size input (curPos s) = Some n ->
  type_code input (curPos s) = Some t ->
  scan_body input s
  = if t <=? 4 then
      match expr s with
      | Some _ =>
          Break {| curPos := curPos s;
                   expr := expr s;
                   err := binaryError WexprErrorCodeBinaryMultipleExpressions
                            "Found multiple expression chunks" |}
      | None =>
          let '(e, err') :=
            wexpr_Expression_createFromBinaryChunk
              (skipn (N.to_nat (curPos s)) input) (n + 5) (err s) in
          Continue {| curPos := curPos s + 5 + n; expr := e; err := err' |}
      end
    else Continue {| curPos := curPos s + 5 + n; expr := expr s; err := err s |}.
Proof.
  intros Hfit Hpos Hsize Htype.
  unfold fits in Hfit. change (2 ^ 63) with 9223372036854775808 in Hfit.
  pose proof (declared_size_range _ _ _ Hsize) as Hn.
  change (2 ^ 32) with 4294967296 in Hn.
  unfold scan_body.
  rewrite <- native_size in Hsize.
  destruct (read_uint32 input (curPos s)) as [raw |]; [| discriminate].
  simpl in Hsize. injection Hsize as Hsize. rewrite Hsize.
  unfold type_code in Htype.
  rewrite (size_t_add_small (curPos s) 4)
    by (change (2 ^ 64) with 18446744073709551616; lia).
  destruct (read_uint8 input (curPos s + 4)) as [ty |]; [| discriminate].
  simpl in Htype. injection Htype as Htype. rewrite Htype.
  rewrite (size_t_add_small (curPos s) 5)
    by (change (2 ^ 64) with 18446744073709551616; lia).
  rewrite (size_t_add_small (curPos s + 5) n)
    by (change (2 ^ 64) with 18446744073709551616; lia).
  rewrite (size_t_add_small n 4)
    by (change (2 ^ 64) with 18446744073709551616; lia).
  rewrite (size_t_add_small (n + 4) 1)
    by (change (2 ^ 64) with 18446744073709551616; lia).
  replace (n + 4 + 1) with (n + 5) by lia.
  reflexivity.
Qed.

(** A pass that falls through has moved past the chunk header. *)
Lemma scan_body_advances (input : bytes) (s s' : Scan) :
  fits input ->
  curPos s < N.of_nat (List.length input) ->
  scan_body input s = Continue s' ->
  curPos s + 5 <= curPos s'.
Proof.
  intros Hfit Hpos Hbody.
  destruct (declared_size input (curPos s)) as [n |] eqn:Hsize.
  - destruct (type_code input (curPos s)) as [t |] eqn:Htype.
    + rewrite (scan_body_cases input s n t Hfit Hpos Hsize Htype) in Hbody.
      destruct (t <=? 4).
      * destruct (expr s); [discriminate |].
        destruct (wexpr_Expression_createFromBinaryChunk _ _ _).
        injection Hbody as <-. simpl. lia.
      * injection Hbody as <-. simpl. lia.
    + unfold scan_body in Hbody. unfold type_code in Htype.
      unfold fits in Hfit. change (2 ^ 63) with 9223372036854775808 in Hfit.
      rewrite (size_t_add_small (curPos s) 4) in Hbody
        by (change (2 ^ 64) with 18446744073709551616; lia).
      destruct (read_uint32 input (curPos s)); [| discriminate].
      destruct (read_uint8 input (curPos s + 4)); [discriminate | discriminate].
  - rewrite <- native_size in Hsize. unfold scan_body in Hbody.
    destruct (read_uint32 input (curPos s)); [discriminate | discriminate].
Qed.

(** Enough fuel is as good as more. *)
Lemma scan_fuel (input : bytes) :
  fits input ->
  forall (f g : nat) (s : Scan),
    N.of_nat (List.length input) <= curPos s + N.of_nat f ->
    N.of_nat (List.length input) <= curPos s + N.of_nat g ->
    scan f input s = scan g input s.
Proof.
  intros Hfit f. induction f as [| f IH]; intros g s Hf Hg.
  - destruct g as [| g]; [reflexivity |]. simpl.
    destruct (N.ltb_spec (curPos s) (N.of_nat (List.length input))); [lia | reflexivity].
  - destruct g as [| g]; simpl.
    + destruct (N.ltb_spec (curPos s) (N.of_nat (List.length input))); [lia | reflexivity].
    + destruct (N.ltb_spec (curPos s) (N.of_nat (List.length input))) as [Hlt | Hge];
        [| reflexivity].
      destruct (scan_body input s) as [s' | s' |] eqn:Hbody; try reflexivity.
      pose proof (scan_body_advances input s s' Hfit Hlt Hbody).
      apply IH; lia.
Qed.

(** The loop ends for every input that fits. *)
Lemma scan_ends (input : bytes) :
  fits input ->
  forall (f : nat) (s : Scan),
    N.of_nat (List.length input) <= curPos s + N.of_nat f ->
    scan f input s <> OutOfFuel.
Proof.
  intros Hfit f. induction f as [| f IH]; intros s Hf; simpl.
  - destruct (N.ltb_spec (curPos s) (N.of_nat (List.length input))); [lia | discriminate].
  - destruct (N.ltb_spec (curPos s) (N.of_nat (List.length input))) as [Hlt | Hge];
      [| discriminate].
    destruct (scan_body input s) as [s' | s' |] eqn:Hbody; try discriminate.
    pose proof (scan_body_advances input s s' Hfit Hlt Hbody).
    apply IH; lia.
Qed.

(** From wherever the loop arrives, it ends as it does from its start. *)
Lemma scan_from_arrival (input : bytes) (s : Scan) :
  fits input ->
  arrives input s ->
  20 <= curPos s /\
  scan (List.length input) input scan_start = scan (List.length input) input s.
Proof.
  intros Hfit Harr. induction Harr as [| s s' Harr [Hpos IH] Hlt Hbody].
  - split; [simpl; lia | reflexivity].
  - pose proof (scan_body_advances input s s' Hfit Hlt Hbody) as Hadv.
    split; [lia |]. rewrite IH.
    rewrite (scan_fuel input Hfit (List.length input) (S (List.length input)) s)
      by lia.
    cbn [scan].
    destruct (N.ltb_spec (curPos s) (N.of_nat (List.length input))) as [_ | Hge];
      [| lia].
    now rewrite Hbody.
Qed.

End Scanning.

(** ** The header checks *)

Lemma read_uint8_at (input : bytes) (i : nat) :
  (i < List.length input)%nat ->
  read_uint8 input (N.of_nat i) = Some (byte_at input i).
Proof.
  intros Hi. unfold read_uint8, buffer, byte_at.
  rewrite Nat2N.id, nth_error_app1 by assumption.
  now apply nth_error_nth'.
Qed.

Lemma memcmp_differs_inside (input : bytes) (i : nat) (expected : bytes) :
  (i + List.length expected <= List.length input)%nat ->
  memcmp_differs input (N.of_nat i) expected
  = negb (bytes_eqb (firstn (List.length expected) (skipn i input)) expected).
Proof.
  intros Hi. unfold memcmp_differs, buffer.
  rewrite Nat2N.id, skipn_app, firstn_app, length_skipn.
  replace (List.length expected - (List.length input - i))%nat with 0%nat by lia.
  now rewrite firstn_O, app_nil_r.
Qed.

Lemma nonzero_reserved (input : bytes) (i : nat) :
  (12 <= i < 20)%nat -> byte_at input i <> x00 ->
  firstn 8 (skipn 12 input) <> reserved.
Proof.
  intros Hi Hb E. apply Hb. unfold byte_at.
  assert (Hn : nth i input x00 = nth (i - 12) reserved x00).
  { rewrite <- E, nth_firstn.
    destruct (Nat.ltb_spec (i - 12) 8) as [_ | Hge]; [| lia].
    rewrite nth_skipn. f_equal. lia. }
  rewrite Hn. clear Hn E Hb. unfold reserved.
  destruct (i - 12)%nat as [| [| [| [| [| [| [| [| k]]]]]]]] eqn:Ek;
    try reflexivity.
  lia.
Qed.

Section Loading.
Context `{Host} `{WexprLibrary}.

Lemma read_uint32_at (input : bytes) (i : nat) :
  (i + 3 < List.length input)%nat ->
  read_uint32 input (N.of_nat i)
  = Some (uint32_of_bytes (byte_at input i) (byte_at input (i + 1))
            (byte_at input (i + 2)) (byte_at input (i + 3))).
Proof.
  intros Hi. unfold read_uint32.
  replace (N.of_nat i + 1) with (N.of_nat (i + 1)) by lia.
  replace (N.of_nat i + 2) with (N.of_nat (i + 2)) by lia.
  replace (N.of_nat i + 3) with (N.of_nat (i + 3)) by lia.
  now rewrite !read_uint8_at by lia.
Qed.

(** [load] on an input that starts with the binary sentinel and is long
    enough for a header: the three header tests, then the chunk loop. *)
Lemma load_binary (input : bytes) :
  hd_error input = Some x83 ->
  20 <= N.of_nat (List.length input) ->
  load input
  = if negb (bytes_eqb (firstn 8 input) magic) then
      Returned (None, binaryError WexprErrorCodeBinaryInvalidHeader
                        "Invalid binary header - invalid magic")
    else if negb (version_field input =? 1) then
      Returned (None, binaryError WexprErrorCodeBinaryUnknownVersion
                        "Invalid binary header - unknown version")
    else if negb (bytes_eqb (firstn 8 (skipn 12 input)) reserved) then
      Returned (None, binaryError WexprErrorCodeBinaryInvalidHeader
                        "Invalid binary header - unknown reserved bits")
    else leaves (scan (List.length input) input scan_start).
Proof.
  intros Hhd Hlen. unfold load.
  destruct input as [| b rest]; [discriminate |].
  injection Hhd as ->. rewrite byte_eqb_refl, andb_true_r.
  destruct (N.leb_spec 1 (N.of_nat (List.length (x83 :: rest)))) as [_ | Hlt];
    [| lia].
  destruct (N.ltb_spec (N.of_nat (List.length (x83 :: rest))) 20) as [Hlt | _];
    [lia |].
  change 0 with (N.of_nat 0). change 8 with (N.of_nat 8).
  change 12 with (N.of_nat 12).
  rewrite (memcmp_differs_inside _ 0 magic) by (simpl List.length in *; lia).
  rewrite (memcmp_differs_inside _ 12 reserved) by (simpl List.length in *; lia).
  rewrite (read_uint32_at _ 8) by (simpl List.length in *; lia).
  rewrite version_test. reflexivity.
Qed.

(** [load] on an input with a valid header is the chunk loop. *)
Lemma load_valid_header (chunks : bytes) :
  load (validHeader ++ chunks)
  = leaves (scan (List.length (validHeader ++ chunks)) (validHeader ++ chunks)
              scan_start).
Proof.
  rewrite load_binary;
    [| reflexivity
     | rewrite length_app; change (List.length validHeader) with 20%nat; lia].
  change (firstn 8 (validHeader ++ chunks)) with magic.
  change (version_field (validHeader ++ chunks)) with 1.
  change (firstn 8 (skipn 12 (validHeader ++ chunks))) with reserved.
  reflexivity.
Qed.

(** For an input that fits, [load] ends within the passes it grants the
    loop. *)
Lemma load_ends (input : bytes) : fits input -> load input <> OutOfFuel.
Proof.
  intros Hfit. unfold load.
  destruct ((1 <=? N.of_nat (List.length input))
            && match input with
               | [] => false
               | b :: _ => byte_eqb b x83
               end); [| discriminate].
  destruct (N.of_nat (List.length input) <? 20); [discriminate |].
  destruct (memcmp_differs input 0 magic); [discriminate |].
  destruct (read_uint32 input 8) as [v |]; [| discriminate].
  destruct (negb (v =? wexpr_uint32ToBig 1)); [discriminate |].
  destruct (memcmp_differs input 12 reserved); [discriminate |].
  pose proof (scan_ends input Hfit (List.length input)
                {| curPos := 20; expr := None; err := WEXPR_ERROR_INIT |}
                ltac:(cbn [curPos]; lia)) as Hends.
  destruct (scan (List.length input) input
              {| curPos := 20; expr := None; err := WEXPR_ERROR_INIT |});
    [discriminate | discriminate | contradiction].
Qed.

End Loading.

(** ** The driver on binary input *)

Section BinaryInput.
Context `{Host} `{WexprLibrary}.

(** C9.  An input that starts with the sentinel 0x83 and is shorter than
    the 20-byte header is reported as BinaryInvalidHeader with line 0 and
    column 0; no expression is produced, and the result owes nothing to the
    chunk decoder of the library, whichever it is. *)
Theorem short_binary_input_rejected (input : bytes) :
  hd_error input = Some x83 ->
  N.of_nat (List.length input) < 20 ->
  load input
  = Returned (None, {| code := WexprErrorCodeBinaryInvalidHeader;
                       message := "Invalid binary header - not big enough";
                       line := 0;
                       column := 0 |}).
Proof.
  intros Hhd Hlen. unfold load.
  destruct input as [| b rest]; [discriminate |].
  injection Hhd as ->. rewrite byte_eqb_refl, andb_true_r.
  destruct (N.leb_spec 1 (N.of_nat (List.length (x83 :: rest)))) as [_ | Hlt];
    [| simpl List.length in Hlt; lia].
  destruct (N.ltb_spec (N.of_nat (List.length (x83 :: rest))) 20) as [_ | Hge];
    [reflexivity | lia].
Qed.

(** C3.  On an input that starts with 0x83 and holds at least 20 bytes: a
    wrong magic is BinaryInvalidHeader; with the magic right, a version
    other than 1 is BinaryUnknownVersion; with both right, a nonzero
    reserved byte is BinaryInvalidHeader.  No expression is produced. *)
Theorem bad_header_rejected (input : bytes) :
  hd_error input = Some x83 ->
  20 <= N.of_nat (List.length input) ->
  (firstn 8 input <> magic ->
   load input
   = Returned (None, {| code := WexprErrorCodeBinaryInvalidHeader;
                        message := "Invalid binary header - invalid magic";
                        line := 0;
                        column := 0 |}))
  /\ (firstn 8 input = magic ->
      version_field input <> 1 ->
      load input
      = Returned (None, {| code := WexprErrorCodeBinaryUnknownVersion;
                           message := "Invalid binary header - unknown version";
                           line := 0;
                           column := 0 |}))
  /\ (firstn 8 input = magic ->
      version_field input = 1 ->
      (exists i, (12 <= i < 20)%nat /\ byte_at input i <> x00) ->
      load input
      = Returned (None, {| code := WexprErrorCodeBinaryInvalidHeader;
                           message := "Invalid binary header - unknown reserved bits";
                           line := 0;
                           column := 0 |})).
Proof.
  intros Hhd Hlen. rewrite (load_binary input Hhd Hlen).
  split; [| split].
  - intros Hmagic. apply bytes_eqb_neq in Hmagic. now rewrite Hmagic.
  - intros Hmagic Hversion. apply bytes_eqb_eq in Hmagic. rewrite Hmagic.
    apply N.eqb_neq in Hversion. now rewrite Hversion.
  - intros Hmagic Hversion (i & Hi & Hb).
    apply bytes_eqb_eq in Hmagic. rewrite Hmagic.
    apply N.eqb_eq in Hversion. rewrite Hversion.
    pose proof (nonzero_reserved input i Hi Hb) as Hres.
    apply bytes_eqb_neq in Hres. now rewrite Hres.
Qed.

(** The chunk at the loop position has a size when it has a type. *)
Lemma typed_chunk_has_size (input : bytes) (pos t : N) :
  type_code input pos = Some t -> exists n, declared_size input pos = Some n.
Proof.
  unfold type_code. intros Ht.
  destruct (read_uint8 input (pos + 4)) as [b |] eqn:E; [| discriminate].
  apply read_uint8_bound in E. apply declared_size_inside. lia.
Qed.

(** C2.  Past a valid header, when the loop stands at a chunk of type code
    0x00..0x04 and an expression has already been built, the driver records
    BinaryMultipleExpressions and the run ends as a failure that writes no
    expression: the error lines, or [false] under validate. *)
Theorem second_expression_rejected (chunks : bytes) (s : Scan)
    (e : WexprExpression) (t : N) (r : Results) :
  let input := validHeader ++ chunks in
  fits input ->
  arrives input s ->
  curPos s < N.of_nat (List.length input) ->
  expr s = Some e ->
  type_code input (curPos s) = Some t ->
  t <= 4 ->
  normal_flow r ->
  let multiple :=
    {| code := WexprErrorCodeBinaryMultipleExpressions;
       message := "Found multiple expression chunks";
       line := 0;
       column := 0 |} in
  load input = Returned (Some e, multiple)
  /\ main r input = Returned (reports r multiple).
Proof.
  intros input Hfit Harr Hpos Hexpr Htype Ht (Hv & Hh & Hc) multiple.
  assert (Hload : load input = Returned (Some e, multiple)).
  { unfold input. rewrite load_valid_header. fold input.
    destruct (scan_from_arrival input s Hfit Harr) as [_ ->].
    rewrite (scan_fuel input Hfit (List.length input) (S (List.length input)) s)
      by lia.
    cbn [scan].
    destruct (N.ltb_spec (curPos s) (N.of_nat (List.length input))) as [_ | Hge];
      [| lia].
    destruct (typed_chunk_has_size input (curPos s) t Htype) as [n Hsize].
    rewrite (scan_body_cases input s n t Hfit Hpos Hsize Htype).
    destruct (N.leb_spec t 4) as [_ | Hgt]; [| lia].
    rewrite Hexpr. reflexivity. }
  split; [exact Hload |].
  unfold main. rewrite Hv, Hh. unfold run, reports. rewrite Hload.
  destruct (command r); try reflexivity. contradiction.
Qed.

(** C10.  When the loop stands at a chunk whose type code is above 0x04,
    the pass through the body only moves the position past the chunk, by 5
    plus its declared size: the expression and the error are what they
    were, whether or not an expression has been built, and the loop goes on
    from there. *)
Theorem auxiliary_chunk_skipped (input : bytes) (s : Scan) (n t : N) :
  fits input ->
  arrives input s ->
  curPos s < N.of_nat (List.length input) ->
  declared_size input (curPos s) = Some n ->
  type_code input (curPos s) = Some t ->
  4 < t ->
  let s' := {| curPos := curPos s + 5 + n; expr := expr s; err := err s |} in
  scan_body input s = Continue s'
  /\ arrives input s'
  /\ scan (List.length input) input scan_start
     = scan (List.length input) input s'.
Proof.
  intros Hfit Harr Hpos Hsize Htype Ht s'.
  assert (Hbody : scan_body input s = Continue s').
  { rewrite (scan_body_cases input s n t Hfit Hpos Hsize Htype).
    destruct (N.leb_spec t 4) as [Hle | _]; [lia | reflexivity]. }
  assert (Harr' : arrives input s') by (eapply arrives_next; eassumption).
  split; [exact Hbody |]. split; [exact Harr' |].
  now destruct (scan_from_arrival input s' Hfit Harr').
Qed.

(** The loop keeps errors unpositioned when the decoder does. *)
Lemma scan_errors_unpositioned (input : bytes) :
  decoder_errors_unpositioned ->
  forall (fuel : nat) (s s' : Scan),
    unpositioned (err s) ->
    scan fuel input s = Returned s' ->
    unpositioned (err s').
Proof.
  intros Hdec fuel. induction fuel as [| fuel IH]; intros s s' Hs Hscan; simpl in Hscan.
  - destruct (curPos s <? N.of_nat (List.length input)); [discriminate |].
    injection Hscan as <-. exact Hs.
  - destruct (curPos s <? N.of_nat (List.length input));
      [| injection Hscan as <-; exact Hs].
    destruct (scan_body input s) as [s1 | s1 |] eqn:Hbody; [| | discriminate].
    + apply (IH s1 s'); [| exact Hscan].
      unfold scan_body in Hbody.
      destruct (read_uint32 input (curPos s)); [| discriminate].
      destruct (read_uint8 input (size_t_add (curPos s) 4)); [| discriminate].
      destruct (Byte.to_N b <=? 4).
      * destruct (expr s); [discriminate |].
        destruct (wexpr_Expression_createFromBinaryChunk _ _ _) as [x e1] eqn:Hcall.
        injection Hbody as <-. simpl.
        exact (Hdec _ _ _ _ _ Hs Hcall).
      * injection Hbody as <-. exact Hs.
    + injection Hscan as <-.
      unfold scan_body in Hbody.
      destruct (read_uint32 input (curPos s)); [| discriminate].
      destruct (read_uint8 input (size_t_add (curPos s) 4)); [| discriminate].
      destruct (Byte.to_N b <=? 4).
      * destruct (expr s); [| destruct (wexpr_Expression_createFromBinaryChunk _ _ _);
                              discriminate].
        injection Hbody as <-. intros _. split; reflexivity.
      * discriminate.
Qed.

(** C8.  Every error the driver ends up with on the binary path (a header
    error, multiple expression chunks, or an error of the chunk decoder)
    carries line 0 and column 0, given that the decoder's own errors do. *)
Theorem binary_errors_unpositioned (input : bytes)
    (x : option WexprExpression) (e : WexprError) :
  decoder_errors_unpositioned ->
  hd_error input = Some x83 ->
  load input = Returned (x, e) ->
  code_is_set (code e) = true ->
  line e = 0 /\ column e = 0.
Proof.
  intros Hdec Hhd Hload Hset.
  destruct (N.ltb_spec (N.of_nat (List.length input)) 20) as [Hshort | Hlong].
  - rewrite (short_binary_input_rejected input Hhd Hshort) in Hload.
    injection Hload as _ <-. split; reflexivity.
  - rewrite (load_binary input Hhd Hlong) in Hload.
    destruct (negb (bytes_eqb (firstn 8 input) magic));
      [injection Hload as _ <-; split; reflexivity |].
    destruct (negb (version_field input =? 1));
      [injection Hload as _ <-; split; reflexivity |].
    destruct (negb (bytes_eqb (firstn 8 (skipn 12 input)) reserved));
      [injection Hload as _ <-; split; reflexivity |].
    destruct (scan (List.length input) input scan_start) as [s' | |] eqn:Hscan;
      try discriminate.
    simpl in Hload. injection Hload as _ <-.
    apply (scan_errors_unpositioned input Hdec (List.length input) scan_start s');
      [intros Hc; discriminate Hc | exact Hscan | exact Hset].
Qed.

End BinaryInput.

(** ** The driver's verdict *)

Section Verdict.
Context `{Host} `{WexprLibrary}.

(** C7.  Under a command other than validate, when parsing or decoding
    leaves an error, the run fails and its last line on the error stream is
    [WexprTool: <path>:<line>:<col>: <message>], with the input path (shown
    as (stdin) when it is [-]) and the fields of the error. *)
Theorem error_is_reported (r : Results) (input : bytes)
    (x : option WexprExpression) (e : WexprError) :
  normal_flow r ->
  command r <> CommandValidate ->
  load input = Returned (x, e) ->
  code_is_set (code e) = true ->
  main r input
  = Returned
      {| events :=
           [Stderr "WexprTool: Error occurred with wexpr:";
            Stderr ("WexprTool: "
                      ++ (if String.eqb (inputPath r) "-" then "(stdin)"
                          else inputPath r)
                      ++ ":" ++ decimal (line e) ++ ":" ++ decimal (column e)
                      ++ ": " ++ message e)%string];
         status := EXIT_FAILURE |}
  /\ EXIT_FAILURE <> 0%Z.
Proof.
  intros (Hv & Hh & Hc) Hnv Hload Hset.
  split; [| discriminate].
  unfold main. rewrite Hv, Hh. unfold run. rewrite Hload, Hset.
  destruct (command r); try reflexivity; contradiction.
Qed.

(** C4, as the driver has it.  Under validate: when no error is left and
    an expression came back, the run writes [true] and a newline and exits
    with 0; when an error is left, or none is left but no expression came
    back, it writes [false] and a newline, nothing on the error stream, and
    exits with a code other than 0. *)
Theorem validate_verdict (r : Results) (input : bytes)
    (x : option WexprExpression) (e : WexprError) :
  normal_flow r ->
  command r = CommandValidate ->
  load input = Returned (x, e) ->
  main r input
  = Returned
      (if code_is_set (code e) then
         {| events := [Output (outputPath r) (text "false" ++ [x0a])];
            status := EXIT_FAILURE |}
       else
         match x with
         | Some _ =>
             {| events := [Output (outputPath r) (text "true" ++ [x0a])];
                status := EXIT_SUCCESS |}
         | None =>
             {| events := [Output (outputPath r) (text "false" ++ [x0a])];
                status := EXIT_FAILURE |}
         end)
  /\ EXIT_SUCCESS = 0%Z /\ EXIT_FAILURE <> 0%Z.
Proof.
  intros (Hv & Hh & _) Hc Hload.
  split; [| split; [reflexivity | discriminate]].
  unfold main. rewrite Hv, Hh, Hc. unfold run. rewrite Hload, Hc.
  destruct (code_is_set (code e)); [reflexivity |].
  destruct x; reflexivity.
Qed.

End Verdict.

(** ** The driver on concrete inputs *)

(** The spec-modelled decoder keeps errors unpositioned. *)
Lemma spec_decoder_unpositioned : @decoder_errors_unpositioned specLibrary.
Proof.
  intros data length e0 e1 x He0 Hcall. simpl in Hcall.
  unfold Binary.wexpr_Expression_createFromBinaryChunk in Hcall.
  destruct (Binary.decode_chunk _ _) as [[e rest] | k |].
  - injection Hcall as _ <-. exact He0.
  - injection Hcall as _ <-. intros _. split; reflexivity.
  - injection Hcall as _ <-. exact He0.
Qed.

Lemma short_binary_input_rejected_witness :
  @load littleEndianHost specLibrary [x83; x42; x57]
  = Returned (None, {| code := WexprErrorCodeBinaryInvalidHeader;
                       message := "Invalid binary header - not big enough";
                       line := 0;
                       column := 0 |}).
Proof.
  apply (@short_binary_input_rejected littleEndianHost specLibrary);
    [reflexivity | reflexivity].
Defined.

Lemma bad_header_rejected_witness :
  @load littleEndianHost specLibrary
    (x83 :: text "XWEXPR" ++ [x0a; x00; x00; x00; x01] ++ reserved ++ nullChunk)
  = Returned (None, {| code := WexprErrorCodeBinaryInvalidHeader;
                       message := "Invalid binary header - invalid magic";
                       line := 0;
                       column := 0 |})
  /\ @load littleEndianHost specLibrary
       (magic ++ [x00; x00; x00; x02] ++ reserved ++ nullChunk)
     = Returned (None, {| code := WexprErrorCodeBinaryUnknownVersion;
                          message := "Invalid binary header - unknown version";
                          line := 0;
                          column := 0 |})
  /\ @load littleEndianHost specLibrary
       (magic ++ [x00; x00; x00; x01]
          ++ [x00; x00; x00; x01; x00; x00; x00; x00] ++ nullChunk)
     = Returned (None, {| code := WexprErrorCodeBinaryInvalidHeader;
                          message := "Invalid binary header - unknown reserved bits";
                          line := 0;
                          column := 0 |}).
Proof.
  split; [| split].
  - apply (@bad_header_rejected littleEndianHost specLibrary);
      [reflexivity | vm_compute; discriminate | vm_compute; discriminate].
  - apply (@bad_header_rejected littleEndianHost specLibrary);
      [reflexivity | vm_compute; discriminate | reflexivity
       | vm_compute; discriminate].
  - apply (@bad_header_rejected littleEndianHost specLibrary);
      [reflexivity | vm_compute; discriminate | reflexivity | reflexivity |].
    exists 15%nat. split; [lia | vm_compute; discriminate].
Defined.

Lemma second_expression_rejected_witness :
  @load littleEndianHost specLibrary (validHeader ++ nullChunk ++ nullChunk)
  = Returned (Some Null,
              {| code := WexprErrorCodeBinaryMultipleExpressions;
                 message := "Found multiple expression chunks";
                 line := 0;
                 column := 0 |})
  /\ @main littleEndianHost specLibrary miniFromStdin
       (validHeader ++ nullChunk ++ nullChunk)
     = Returned
         {| events :=
              [Stderr "WexprTool: Error occurred with wexpr:";
               Stderr "WexprTool: (stdin):0:0: Found multiple expression chunks"];
            status := EXIT_FAILURE |}.
Proof.
  apply (@second_expression_rejected littleEndianHost specLibrary
           (nullChunk ++ nullChunk)
           (@mkScan specLibrary 25 (Some Null) WEXPR_ERROR_INIT)
           Null 0 miniFromStdin).
  - reflexivity.
  - apply (@arrives_next littleEndianHost specLibrary _ scan_start);
      [apply arrives_start | reflexivity | reflexivity].
  - reflexivity.
  - reflexivity.
  - reflexivity.
  - vm_compute; discriminate.
  - repeat split; discriminate.
Defined.

Lemma auxiliary_chunk_skipped_witness :
  @scan_body littleEndianHost specLibrary (validHeader ++ auxChunk ++ nullChunk)
    scan_start
  = Continue (@mkScan specLibrary 26 None WEXPR_ERROR_INIT)
  /\ @arrives littleEndianHost specLibrary (validHeader ++ auxChunk ++ nullChunk)
       (@mkScan specLibrary 26 None WEXPR_ERROR_INIT)
  /\ @scan littleEndianHost specLibrary 31 (validHeader ++ auxChunk ++ nullChunk)
       scan_start
     = @scan littleEndianHost specLibrary 31 (validHeader ++ auxChunk ++ nullChunk)
         (@mkScan specLibrary 26 None WEXPR_ERROR_INIT).
Proof.
  apply (@auxiliary_chunk_skipped littleEndianHost specLibrary
           (validHeader ++ auxChunk ++ nullChunk) scan_start 1 9).
  - reflexivity.
  - apply arrives_start.
  - reflexivity.
  - reflexivity.
  - reflexivity.
  - reflexivity.
Defined.

Lemma binary_errors_unpositioned_witness :
  let input :=
    validHeader ++ [x00; x00; x00; x05; x02; x00; x00; x00; x00; x09] in
  let e := {| code := WexprErrorCodeBinaryUnknownType;
              message := "Unknown chunk type";
              line := 0;
              column := 0 |} in
  @load littleEndianHost specLibrary input = Returned (None, e)
  /\ line e = 0 /\ column e = 0.
Proof.
  intros input e. split; [reflexivity |].
  apply (@binary_errors_unpositioned littleEndianHost specLibrary input None e).
  - exact spec_decoder_unpositioned.
  - reflexivity.
  - reflexivity.
  - reflexivity.
Defined.

Lemma error_is_reported_witness :
  @main littleEndianHost specLibrary miniFromStdin
    (text "#(a" ++ [x0a] ++ text "  b")
  = Returned
      {| events :=
           [Stderr "WexprTool: Error occurred with wexpr:";
            Stderr "WexprTool: (stdin):2:4: Array is missing its ending paren"];
         status := EXIT_FAILURE |}
  /\ EXIT_FAILURE <> 0%Z.
Proof.
  apply (@error_is_reported littleEndianHost specLibrary miniFromStdin
           (text "#(a" ++ [x0a] ++ text "  b") None
           {| code := WexprErrorCodeArrayMissingEndParen;
              message := "Array is missing its ending paren";
              line := 2;
              column := 4 |}).
  - repeat split; discriminate.
  - discriminate.
  - reflexivity.
  - reflexivity.
Defined.

Lemma validate_verdict_witness :
  @main littleEndianHost specLibrary validateFromStdin (validHeader ++ nullChunk)
  = Returned {| events := [Output "-" (text "true" ++ [x0a])];
                status := EXIT_SUCCESS |}
  /\ EXIT_SUCCESS = 0%Z /\ EXIT_FAILURE <> 0%Z.
Proof.
  apply (@validate_verdict littleEndianHost specLibrary validateFromStdin
           (validHeader ++ nullChunk) (Some Null) WEXPR_ERROR_INIT).
  - repeat split; discriminate.
  - reflexivity.
  - reflexivity.
Defined.

(** C4, as stated, fails on a binary file that is a valid header and nothing
    more: decoding leaves no error, yet validate writes [false] and the exit
    code is not 0. *)
Lemma validate_header_only_is_false :
  @load littleEndianHost specLibrary validHeader = Returned (None, WEXPR_ERROR_INIT)
  /\ code WEXPR_ERROR_INIT = WexprErrorCodeNone
  /\ @main littleEndianHost specLibrary validateFromStdin validHeader
     = Returned {| events := [Output "-" (text "false" ++ [x0a])];
                   status := EXIT_FAILURE |}
  /\ @main littleEndianHost specLibrary validateFromStdin validHeader
     <> Returned {| events := [Output "-" (text "true" ++ [x0a])];
                    status := 0%Z |}.
Proof.
  repeat split; try reflexivity. discriminate.
Qed.

(** ** Base64 *)

Lemma below_spec (n : nat) (p : N -> bool) :
  below n p = true -> forall x, x < N.of_nat n -> p x = true.
Proof.
  induction n as [| k IH]; simpl; intros Hb x Hx; [lia |].
  apply andb_true_iff in Hb. destruct Hb as [Hk Hrest].
  destruct (N.eq_dec x (N.of_nat k)) as [-> | Hne]; [exact Hk |].
  apply IH; [exact Hrest | lia].
Qed.

Lemma below2_spec (n m : nat) (p : N -> N -> bool) :
  below n (fun a => below m (p a)) = true ->
  forall a b, a < N.of_nat n -> b < N.of_nat m -> p a b = true.
Proof.
  intros Hb a b Ha Hm.
  apply (below_spec m (p a)); [| exact Hm].
  exact (below_spec n (fun a => below m (p a)) Hb a Ha).
Qed.

Lemma byte_of_to_N (b : byte) : byte_of_N (Byte.to_N b) = b.
Proof.
  unfold byte_of_N.
  assert (E : N.land (Byte.to_N b) 255 = Byte.to_N b).
  { apply N.eqb_eq.
    apply (below_spec 256 (fun n => N.land n 255 =? n));
      [vm_compute; reflexivity | apply byte_range]. }
  now rewrite E, Byte.of_to_N.
Qed.

Module Base64Facts.
Import Base64.

(** Each 6-bit value has a character of the alphabet, which is not the
    padding and maps back to the value. *)
Lemma char_of_sextet_spec (s : N) :
  s < 64 ->
  sextet_of_char (char_of_sextet s) = Some s
  /\ byte_eqb (char_of_sextet s) pad = false
  /\ is_base64_char (char_of_sextet s) = true.
Proof.
  intros Hs.
  assert (E : (match sextet_of_char (char_of_sextet s) with
               | Some v => v =? s
               | None => false
               end)
              && negb (byte_eqb (char_of_sextet s) pad)
              && is_base64_char (char_of_sextet s) = true).
  { apply (below_spec 64
             (fun s => (match sextet_of_char (char_of_sextet s) with
                        | Some v => v =? s
                        | None => false
                        end)
                       && negb (byte_eqb (char_of_sextet s) pad)
                       && is_base64_char (char_of_sextet s)));
      [vm_compute; reflexivity | exact Hs]. }
  apply andb_true_iff in E. destruct E as [E E3].
  apply andb_true_iff in E. destruct E as [E1 E2].
  destruct (sextet_of_char (char_of_sextet s)) as [v |]; [| discriminate].
  apply N.eqb_eq in E1. subst v.
  apply negb_true_iff in E2. auto.
Qed.

(** The four 6-bit values of three bytes are below 64, and the bytes are
    recovered from them. *)
Lemma sextets_spec (a b : N) :
  a < 256 -> b < 256 ->
  sextet0 a < 64 /\ sextet1 a b < 64 /\ sextet2 a b < 64 /\ sextet3 a < 64
  /\ octet0 (sextet0 a) (sextet1 a b) = a
  /\ N.land (sextet1 a b) 15 = N.shiftr b 4
  /\ N.shiftr (sextet2 a b) 2 = N.land a 15
  /\ N.land (sextet2 a b) 3 = N.shiftr b 6
  /\ N.lor (N.shiftl (N.shiftr a 4) 4) (N.land a 15) = a
  /\ N.lor (N.shiftl (N.shiftr a 6) 6) (sextet3 a) = a.
Proof.
  intros Ha Hb.
  pose (p := fun a b : N =>
               (sextet0 a <? 64) && (sextet1 a b <? 64) && (sextet2 a b <? 64)
               && (sextet3 a <? 64)
               && (octet0 (sextet0 a) (sextet1 a b) =? a)
               && (N.land (sextet1 a b) 15 =? N.shiftr b 4)
               && (N.shiftr (sextet2 a b) 2 =? N.land a 15)
               && (N.land (sextet2 a b) 3 =? N.shiftr b 6)
               && (N.lor (N.shiftl (N.shiftr a 4) 4) (N.land a 15) =? a)
               && (N.lor (N.shiftl (N.shiftr a 6) 6) (sextet3 a) =? a)).
  assert (E : p a b = true).
  { apply (below2_spec 256 256 p); [vm_compute; reflexivity | exact Ha | exact Hb]. }
  unfold p in E.
  repeat (apply andb_true_iff in E; destruct E as [E ?]).
  repeat match goal with
         | Hx : (_ <? _) = true |- _ => apply N.ltb_lt in Hx
         | Hx : (_ =? _) = true |- _ => apply N.eqb_eq in Hx
         end.
  repeat split; assumption.
Qed.

Lemma octet1_spec (a b c : N) :
  a < 256 -> b < 256 -> c < 256 -> octet1 (sextet1 a b) (sextet2 b c) = b.
Proof.
  intros Ha Hb Hc. unfold octet1.
  destruct (sextets_spec a b Ha Hb) as (_ & _ & _ & _ & _ & -> & _).
  destruct (sextets_spec b c Hb Hc) as (_ & _ & _ & _ & _ & _ & -> & _ & -> & _).
  reflexivity.
Qed.

Lemma octet2_spec (b c : N) :
  b < 256 -> c < 256 -> octet2 (sextet2 b c) (sextet3 c) = c.
Proof.
  intros Hb Hc. unfold octet2.
  destruct (sextets_spec b c Hb Hc) as (_ & _ & _ & _ & _ & _ & _ & -> & _).
  destruct (sextets_spec c c Hc Hc) as (_ & _ & _ & _ & _ & _ & _ & _ & _ & ->).
  reflexivity.
Qed.

Lemma encode_nil_inv (b : bytes) : encode b = [] -> b = [].
Proof.
  destruct b as [| b0 [| b1 [| b2 rest]]]; simpl; [reflexivity | | |]; discriminate.
Qed.

(** Decoding undoes encoding, whatever the length. *)
Lemma decode_encode_upto (n : nat) :
  forall b : bytes, (List.length b <= n)%nat -> decode (encode b) = Some b.
Proof.
  induction n as [n IH] using lt_wf_ind. intros b Hlen.
  destruct b as [| b0 [| b1 [| b2 rest]]].
  - reflexivity.
  - pose proof (byte_range b0) as H0.
    destruct (sextets_spec (Byte.to_N b0) 0 H0 ltac:(lia))
      as (S0 & S1 & _ & _ & O0 & _).
    destruct (char_of_sextet_spec _ S0) as (C0 & _ & _).
    destruct (char_of_sextet_spec _ S1) as (C1 & _ & _).
    cbn [encode decode]. rewrite C0, C1, byte_eqb_refl, O0, byte_of_to_N.
    reflexivity.
  - pose proof (byte_range b0) as H0. pose proof (byte_range b1) as H1.
    destruct (sextets_spec (Byte.to_N b0) (Byte.to_N b1) H0 H1)
      as (S0 & S1 & _ & _ & O0 & _).
    destruct (sextets_spec (Byte.to_N b1) 0 H1 ltac:(lia))
      as (_ & _ & S2 & _).
    destruct (char_of_sextet_spec _ S0) as (C0 & _ & _).
    destruct (char_of_sextet_spec _ S1) as (C1 & _ & _).
    destruct (char_of_sextet_spec _ S2) as (C2 & P2 & _).
    cbn [encode decode].
    rewrite C0, C1, byte_eqb_refl, P2, C2, O0.
    rewrite (octet1_spec _ _ 0 H0 H1 ltac:(lia)), !byte_of_to_N.
    reflexivity.
  - pose proof (byte_range b0) as H0. pose proof (byte_range b1) as H1.
    pose proof (byte_range b2) as H2.
    destruct (sextets_spec (Byte.to_N b0) (Byte.to_N b1) H0 H1)
      as (S0 & S1 & _ & _ & O0 & _).
    destruct (sextets_spec (Byte.to_N b1) (Byte.to_N b2) H1 H2)
      as (_ & _ & S2 & _).
    destruct (sextets_spec (Byte.to_N b2) 0 H2 ltac:(lia))
      as (_ & _ & _ & S3 & _).
    destruct (char_of_sextet_spec _ S0) as (C0 & _ & _).
    destruct (char_of_sextet_spec _ S1) as (C1 & _ & _).
    destruct (char_of_sextet_spec _ S2) as (C2 & _ & _).
    destruct (char_of_sextet_spec _ S3) as (C3 & P3 & _).
    assert (IHrest : decode (encode rest) = Some rest).
    { apply (IH (List.length rest)); simpl in Hlen; lia. }
    cbn [encode decode]. rewrite C0, C1.
    destruct (encode rest) as [| c rest'] eqn:Erest.
    + apply encode_nil_inv in Erest. subst rest.
      rewrite P3, C2, C3, O0, (octet1_spec _ _ _ H0 H1 H2), (octet2_spec _ _ H1 H2),
        !byte_of_to_N.
      reflexivity.
    + rewrite C2, C3, IHrest, O0, (octet1_spec _ _ _ H0 H1 H2),
        (octet2_spec _ _ H1 H2), !byte_of_to_N.
      reflexivity.
Qed.

(** The encoder emits characters of the alphabet and padding only. *)
Lemma encode_chars_upto (n : nat) :
  forall b : bytes,
    (List.length b <= n)%nat ->
    Forall (fun c => is_base64_char c = true) (encode b).
Proof.
  induction n as [n IH] using lt_wf_ind. intros b Hlen.
  destruct b as [| b0 [| b1 [| b2 rest]]].
  - constructor.
  - pose proof (byte_range b0) as H0.
    destruct (sextets_spec (Byte.to_N b0) 0 H0 ltac:(lia)) as (S0 & S1 & _).
    cbn [encode]. repeat constructor;
      solve [apply char_of_sextet_spec; assumption].
  - pose proof (byte_range b0) as H0. pose proof (byte_range b1) as H1.
    destruct (sextets_spec (Byte.to_N b0) (Byte.to_N b1) H0 H1) as (S0 & S1 & _).
    destruct (sextets_spec (Byte.to_N b1) 0 H1 ltac:(lia)) as (_ & _ & S2 & _).
    cbn [encode]. repeat constructor;
      solve [apply char_of_sextet_spec; assumption].
  - pose proof (byte_range b0) as H0. pose proof (byte_range b1) as H1.
    pose proof (byte_range b2) as H2.
    destruct (sextets_spec (Byte.to_N b0) (Byte.to_N b1) H0 H1) as (S0 & S1 & _).
    destruct (sextets_spec (Byte.to_N b1) (Byte.to_N b2) H1 H2) as (_ & _ & S2 & _).
    destruct (sextets_spec (Byte.to_N b2) 0 H2 ltac:(lia)) as (_ & _ & _ & S3 & _).
    cbn [encode].
    repeat (constructor; [apply char_of_sextet_spec; assumption |]).
    apply (IH (List.length rest)); simpl in Hlen; lia.
Qed.

End Base64Facts.

(** C5.  Decoding the encoding of any byte string gives the byte string
    back; the encoder emits only characters of [A-Za-z0-9+/=]; the empty
    byte string encodes to the empty string, and the empty string decodes to
    the empty buffer. *)
Theorem base64_round_trip (b : bytes) :
  Base64.decode (Base64.encode b) = Some b
  /\ Forall (fun c => Base64.is_base64_char c = true) (Base64.encode b)
  /\ Base64.encode [] = []
  /\ Base64.decode [] = Some [].
Proof.
  split; [| split; [| split; reflexivity]].
  - apply (Base64Facts.decode_encode_upto (List.length b)). lia.
  - apply (Base64Facts.encode_chars_upto (List.length b)). lia.
Qed.

(** ** The accessors *)

(** C6, as stated, fails on the Null expression: its value is the null
    pointer, not an empty string. *)
Lemma value_of_null_is_null_pointer :
  wexpr_Expression_type Null <> WexprExpressionTypeValue
  /\ wexpr_Expression_value Null = None
  /\ wexpr_Expression_value Null <> Some [].
Proof. repeat split; discriminate. Qed.

(** C6, as the declarations have it.  On every expression that is not a
    Value the value accessor returns the null pointer; on a Null or Invalid
    expression the array and map counts are zero and the lookups by index or
    by key return the null pointer. *)
Theorem accessors_on_other_types (self : Expression) :
  (wexpr_Expression_type self <> WexprExpressionTypeValue ->
   wexpr_Expression_value self = None)
  /\ (self = Null \/ self = Invalid ->
      wexpr_Expression_arrayCount self = 0
      /\ wexpr_Expression_mapCount self = 0
      /\ (forall index, wexpr_Expression_arrayAt self index = None)
      /\ (forall index, wexpr_Expression_mapKeyAt self index = None)
      /\ (forall index, wexpr_Expression_mapValueAt self index = None)
      /\ (forall key, wexpr_Expression_mapValueForKey self key = None)).
Proof.
  split.
  - destruct self; simpl; intros Hty; try reflexivity. contradiction.
  - intros [-> | ->]; repeat split; reflexivity.
Qed.

Lemma accessors_on_other_types_witness :
  wexpr_Expression_value (Array [Value (text "a")]) = None
  /\ wexpr_Expression_arrayCount Invalid = 0
  /\ wexpr_Expression_mapValueForKey Null (text "k") = None.
Proof.
  destruct (accessors_on_other_types (Array [Value (text "a")])) as [Hvalue _].
  destruct (accessors_on_other_types Invalid) as [_ Hinvalid].
  destruct (accessors_on_other_types Null) as [_ Hnull].
  split; [apply Hvalue; discriminate |].
  split; [apply Hinvalid; right; reflexivity |].
  apply Hnull. left. reflexivity.
Defined.

(** ** The textual codec *)

Lemma position_from_one (s : bytes) :
  forall (offset : nat) (l c : N),
    1 <= l -> 1 <= c ->
    1 <= fst (Parser.position s offset l c)
    /\ 1 <= snd (Parser.position s offset l c).
Proof.
  induction s as [| b s IH]; intros offset l c Hl Hc.
  - destruct offset; simpl; auto.
  - destruct offset as [| offset]; simpl; [auto |].
    destruct (byte_eqb b x0a); apply IH; lia.
Qed.

(** The errors of the spec-modelled parser carry 1-based positions, where
    those of the binary path carry zeros. *)
Lemma textual_errors_positioned (str : bytes) (length : N)
    (x : option Expression) (e : WexprError) :
  Parser.wexpr_Expression_createFromLengthString str length WEXPR_ERROR_INIT
  = (x, e) ->
  code_is_set (code e) = true ->
  1 <= line e /\ 1 <= column e.
Proof.
  unfold Parser.wexpr_Expression_createFromLengthString.
  destruct (Parser.document _) as [r | k n |]; intros [= _ <-] Hset;
    try discriminate Hset.
  unfold Parser.error_at.
  pose proof (position_from_one (firstn (N.to_nat length) str)
                (List.length (firstn (N.to_nat length) str) - n) 1 1
                ltac:(lia) ltac:(lia)) as [Hl Hc].
  destruct (Parser.position _ _ 1 1) as [l c]. simpl in *. auto.
Qed.

(** C1 at the input made of the six bytes of the quoted string [null]: it
    parses to the Value [null]; the writer, in either mode, writes that
    Value without quotes, since none of its characters is reserved or
    whitespace; and what is written parses to the Null expression, which is
    not the Value. *)
Theorem quoted_null_does_not_round_trip :
  Parser.wexpr_Expression_createFromLengthString
    ([x22] ++ text "null" ++ [x22]) 6 WEXPR_ERROR_INIT
  = (Some (Value (text "null")), WEXPR_ERROR_INIT)
  /\ Writer.wexpr_Expression_createStringRepresentation (Value (text "null")) 0
       WexprWriteFlagNone = text "null"
  /\ Writer.wexpr_Expression_createStringRepresentation (Value (text "null")) 0
       WexprWriteFlagHumanReadable = text "null"
  /\ Parser.wexpr_Expression_createFromLengthString (text "null") 4
       WEXPR_ERROR_INIT
     = (Some Null, WEXPR_ERROR_INIT)
  /\ Null <> Value (text "null").
Proof. repeat split; try reflexivity. discriminate. Qed.

(** ** The spec-modelled parser and decoder never run short of fuel *)

Module ParserFacts.
Import Parser.

Lemma after_line_length (s : bytes) :
  (List.length (after_line s) <= List.length s)%nat.
Proof.
  induction s as [| c s IH]; simpl; [lia |].
  destruct (byte_eqb c x0a); lia.
Qed.

Lemma after_block_length (s : bytes) :
  (List.length (after_block s) <= List.length s)%nat.
Proof.
  induction s as [| c s IH]; [simpl; lia |].
  cbn [after_block].
  destruct (starts_with (text "--)") (c :: s)).
  - rewrite length_skipn. lia.
  - simpl. lia.
Qed.

Lemma skip_trivia_for_length (fuel : nat) :
  forall s : bytes, (List.length (skip_trivia_for fuel s) <= List.length s)%nat.
Proof.
  induction fuel as [| fuel IH]; intros s; [destruct s; simpl; lia |].
  destruct s as [| c s]; [simpl; lia |].
  cbn [skip_trivia_for].
  destruct (is_whitespace c).
  - specialize (IH s). cbn [List.length]. lia.
  - destruct (byte_eqb c x3b); [| lia].
    destruct (starts_with (text "(--") s).
    + specialize (IH (after_block (skipn 3 s))).
      pose proof (after_block_length (skipn 3 s)) as Hb.
      rewrite length_skipn in Hb. cbn [List.length]. lia.
    + specialize (IH (after_line s)).
      pose proof (after_line_length s). cbn [List.length]. lia.
Qed.

Lemma skip_trivia_length (s : bytes) :
  (List.length (skip_trivia s) <= List.length s)%nat.
Proof. apply skip_trivia_for_length. Qed.

Lemma split_at_length (stop : byte) (s before after : bytes) :
  split_at stop s = Some (before, after) ->
  (List.length after < List.length s)%nat.
Proof.
  revert before after. induction s as [| c s IH]; intros before after; simpl;
    [discriminate |].
  destruct (byte_eqb c stop).
  - intros [= _ <-]. lia.
  - destruct (split_at stop s) as [[b a] |]; [| discriminate].
    intros [= _ <-]. specialize (IH b a eq_refl). lia.
Qed.

Lemma take_atom_length (s : bytes) :
  List.length s
  = (List.length (fst (take_atom s)) + List.length (snd (take_atom s)))%nat.
Proof.
  induction s as [| c s IH]; simpl; [reflexivity |].
  destruct (is_whitespace c || is_reserved c); [reflexivity |].
  destruct (take_atom s) as [atom rest]. simpl in *. lia.
Qed.

Lemma quoted_length (s : bytes) :
  quoted s <> Exhausted
  /\ forall v rest, quoted s = Ok (v, rest) ->
                    (List.length rest < List.length s)%nat.
Proof.
  remember (List.length s) as n eqn:Hn. revert s Hn.
  induction n as [n IH] using lt_wf_ind. intros s Hn. subst n.
  destruct s as [| c s]; [split; [discriminate | intros; discriminate] |].
  cbn [quoted].
  destruct (byte_eqb c x22);
    [split; [discriminate | intros v rest [= _ <-]; simpl; lia] |].
  destruct (byte_eqb c x5c).
  - destruct s as [| e s]; [split; [discriminate | intros; discriminate] |].
    destruct (if byte_eqb e x22 then Some x22
              else if byte_eqb e x5c then Some x5c
              else if byte_eqb e x6e then Some x0a
              else if byte_eqb e x74 then Some x09 else None);
      [| split; [discriminate | intros; discriminate]].
    destruct (IH (List.length s) ltac:(simpl; lia) s eq_refl) as [Hex Hlen].
    destruct (quoted s) as [[v rest] | k m |]; [| | contradiction].
    + split; [discriminate |]. intros v' rest' [= _ <-].
      specialize (Hlen v rest eq_refl). simpl. lia.
    + split; [discriminate | intros; discriminate].
  - destruct (IH (List.length s) ltac:(simpl; lia) s eq_refl) as [Hex Hlen].
    destruct (quoted s) as [[v rest] | k m |]; [| | contradiction].
    + split; [discriminate |]. intros v' rest' [= _ <-].
      specialize (Hlen v rest eq_refl). simpl. lia.
    + split; [discriminate | intros; discriminate].
Qed.

(** With fuel for twice the input, no part of the parser is cut short, and
    what a part leaves unread is shorter than what it was given. *)
Lemma parser_enough_fuel (fuel : nat) :
  (forall refs s,
      (2 * List.length s + 1 <= fuel)%nat ->
      expression fuel refs s <> Exhausted
      /\ forall e refs' rest,
          expression fuel refs s = Ok (e, refs', rest) ->
          (List.length rest < List.length s)%nat)
  /\ (forall refs s items,
         (2 * List.length s + 2 <= fuel)%nat ->
         array fuel refs s items <> Exhausted
         /\ forall e refs' rest,
             array fuel refs s items = Ok (e, refs', rest) ->
             (List.length rest <= List.length s)%nat)
  /\ (forall refs s pairs,
         (2 * List.length s + 2 <= fuel)%nat ->
         map fuel refs s pairs <> Exhausted
         /\ forall e refs' rest,
             map fuel refs s pairs = Ok (e, refs', rest) ->
             (List.length rest <= List.length s)%nat).
Proof.
  induction fuel as [| fuel (IHe & IHa & IHm)].
  { repeat split; intros; lia. }
  split; [| split].
  - intros refs s Hf. cbn [expression].
    destruct s as [| c s]; [split; [discriminate | intros; discriminate] |].
    destruct (byte_eqb c x23).
    { destruct s as [| p s]; [split; [discriminate | intros; discriminate] |].
      destruct (byte_eqb p x28); [| split; [discriminate | intros; discriminate]].
      destruct (IHa refs s [] ltac:(simpl in Hf; lia)) as [Hex Hlen].
      split; [exact Hex |]. intros e refs' rest Hok.
      specialize (Hlen e refs' rest Hok). simpl. lia. }
    destruct (byte_eqb c x40).
    { destruct s as [| p s]; [split; [discriminate | intros; discriminate] |].
      destruct (byte_eqb p x28); [| split; [discriminate | intros; discriminate]].
      destruct (IHm refs s [] ltac:(simpl in Hf; lia)) as [Hex Hlen].
      split; [exact Hex |]. intros e refs' rest Hok.
      specialize (Hlen e refs' rest Hok). simpl. lia. }
    destruct (byte_eqb c x22).
    { destruct (quoted_length s) as [Hex Hlen].
      destruct (quoted s) as [[v rest] | k m |]; [| | contradiction].
      - split; [discriminate |]. intros e refs' rest' [= _ _ <-].
        specialize (Hlen v rest eq_refl). simpl. lia.
      - split; [discriminate | intros; discriminate]. }
    destruct (byte_eqb c x3c).
    { destruct (split_at x3e s) as [[payload rest] |] eqn:Hsplit;
        [| split; [discriminate | intros; discriminate]].
      apply split_at_length in Hsplit.
      destruct (Base64.decode payload);
        [| split; [discriminate | intros; discriminate]].
      split; [discriminate |]. intros e refs' rest' [= _ _ <-]. simpl. lia. }
    destruct (byte_eqb c x5b).
    { destruct (split_at x5d s) as [[name rest] |] eqn:Hsplit;
        [| split; [discriminate | intros; discriminate]].
      apply split_at_length in Hsplit.
      pose proof (skip_trivia_length rest) as Hskip.
      destruct (IHe refs (skip_trivia rest) ltac:(simpl in Hf; lia)) as [Hex Hlen].
      destruct (expression fuel refs (skip_trivia rest)) as [[[e r] rest'] | k m |];
        [| | contradiction].
      - split; [discriminate |]. intros e' refs' rest'' [= _ _ <-].
        specialize (Hlen e r rest' eq_refl). simpl. lia.
      - split; [discriminate | intros; discriminate]. }
    destruct (byte_eqb c x2a).
    { destruct s as [| b s]; [split; [discriminate | intros; discriminate] |].
      destruct (byte_eqb b x5b); [| split; [discriminate | intros; discriminate]].
      destruct (split_at x5d s) as [[name rest] |] eqn:Hsplit;
        [| split; [discriminate | intros; discriminate]].
      apply split_at_length in Hsplit.
      destruct (lookup name refs);
        [| split; [discriminate | intros; discriminate]].
      split; [discriminate |]. intros e' refs' rest' [= _ _ <-]. simpl. lia. }
    pose proof (take_atom_length (c :: s)) as Hatom.
    destruct (take_atom (c :: s)) as [[| a atom] rest];
      [split; [discriminate | intros; discriminate] |].
    simpl in Hatom.
    destruct (bytes_eqb (a :: atom) (text "null"));
      (split; [discriminate |]; intros e' refs' rest' [= _ _ <-]; simpl; lia).
  - intros refs s items Hf. cbn [array].
    pose proof (skip_trivia_length s) as Hskip.
    destruct (skip_trivia s) as [| c rest];
      [split; [discriminate | intros; discriminate] |].
    destruct (byte_eqb c x29).
    { split; [discriminate |]. intros e refs' rest' [= _ _ <-]. simpl in Hskip. lia. }
    destruct (IHe refs (c :: rest) ltac:(lia)) as [Hex Hlen].
    destruct (expression fuel refs (c :: rest)) as [[[e r] rest'] | k m |];
      [| | contradiction].
    + specialize (Hlen e r rest' eq_refl).
      destruct (IHa r rest' (items ++ [e]) ltac:(lia)) as [Hex' Hlen'].
      split; [exact Hex' |]. intros e' refs' rest'' Hok.
      specialize (Hlen' e' refs' rest'' Hok). lia.
    + split; [discriminate | intros; discriminate].
  - intros refs s pairs Hf. cbn [map].
    pose proof (skip_trivia_length s) as Hskip.
    destruct (skip_trivia s) as [| c rest];
      [split; [discriminate | intros; discriminate] |].
    destruct (byte_eqb c x29).
    { split; [discriminate |]. intros e refs' rest' [= _ _ <-]. simpl in Hskip. lia. }
    destruct (IHe refs (c :: rest) ltac:(lia)) as [Hex Hlen].
    destruct (expression fuel refs (c :: rest)) as [[[key r1] rest1] | k m |];
      [| | contradiction]; [| split; [discriminate | intros; discriminate]].
    specialize (Hlen key r1 rest1 eq_refl).
    destruct key; try (split; [discriminate | intros; discriminate]).
    pose proof (skip_trivia_length rest1) as Hskip1.
    destruct (skip_trivia rest1) as [| c2 rest2];
      [split; [discriminate | intros; discriminate] |].
    destruct (byte_eqb c2 x29); [split; [discriminate | intros; discriminate] |].
    destruct (IHe r1 (c2 :: rest2) ltac:(lia)) as [Hex2 Hlen2].
    destruct (expression fuel r1 (c2 :: rest2)) as [[[val r2] rest3] | k m |];
      [| | contradiction]; [| split; [discriminate | intros; discriminate]].
    specialize (Hlen2 val r2 rest3 eq_refl).
    destruct (IHm r2 rest3 (add_pair pairs v val) ltac:(lia)) as [Hex3 Hlen3].
    split; [exact Hex3 |]. intros e' refs' rest'' Hok.
    specialize (Hlen3 e' refs' rest'' Hok). lia.
Qed.

(** Every document is parsed or rejected. *)
Lemma document_total (input : bytes) : document input <> Exhausted.
Proof.
  unfold document.
  pose proof (skip_trivia_length input) as Hskip.
  destruct (skip_trivia input) as [| c s]; [discriminate |].
  destruct (parser_enough_fuel (2 * List.length input + 2)) as (He & _ & _).
  destruct (He [] (c :: s) ltac:(lia)) as [Hex _].
  destruct (expression _ [] (c :: s)) as [[[e r] rest] | k m |];
    [| discriminate | contradiction].
  destruct (skip_trivia rest); discriminate.
Qed.

End ParserFacts.

Module BinaryFacts.
Import Binary.

(** With fuel for twice the input, the chunk decoder is not cut short, and a
    chunk leaves less than it was given. *)
Lemma decoder_enough_fuel (fuel : nat) :
  (forall data,
      (2 * List.length data + 1 <= fuel)%nat ->
      decode_chunk fuel data <> Exhausted
      /\ forall e rest,
          decode_chunk fuel data = Ok (e, rest) ->
          (List.length rest + 5 <= List.length data)%nat)
  /\ (forall data,
         (2 * List.length data + 2 <= fuel)%nat ->
         decode_children fuel data <> Exhausted).
Proof.
  induction fuel as [| fuel (IHc & IHs)].
  { split; intros; lia. }
  split.
  - intros data Hf. cbn [decode_chunk].
    destruct data as [| b0 [| b1 [| b2 [| b3 [| type body]]]]];
      try (split; [discriminate | intros; discriminate]).
    set (size := N.to_nat (uint32_of_big_endian b0 b1 b2 b3)).
    destruct (Nat.ltb_spec (List.length body) size) as [Hlt | Hge];
      [split; [discriminate | intros; discriminate] |].
    assert (Hrest : (List.length (skipn size body) + 5
                     <= List.length (b0 :: b1 :: b2 :: b3 :: type :: body))%nat)
      by (rewrite length_skipn; cbn [List.length]; lia).
    assert (Hpay : (2 * List.length (firstn size body) + 2 <= fuel)%nat)
      by (rewrite length_firstn; cbn [List.length] in Hf; lia).
    pose proof (IHs (firstn size body) Hpay) as Hex.
    destruct (Byte.to_N type) as [| p];
      [split; [discriminate | intros e rest [= _ <-]; exact Hrest] |].
    destruct p as [[[| |] | [| |] |] | [[| |] | [| |] |] |];
      try (split; [discriminate | intros; discriminate]);
      try (split; [discriminate | intros e rest [= _ <-]; exact Hrest]).
    + destruct (decode_children fuel (firstn size body)) as [children | k |];
        [| split; [discriminate | intros; discriminate] | contradiction].
      destruct (pair_up children);
        [| split; [discriminate | intros; discriminate]].
      split; [discriminate | intros e rest [= _ <-]; exact Hrest].
    + destruct (decode_children fuel (firstn size body)) as [children | k |];
        [| split; [discriminate | intros; discriminate] | contradiction].
      split; [discriminate | intros e rest [= _ <-]; exact Hrest].
  - intros data Hf. cbn [decode_children].
    destruct data as [| b data]; [discriminate |].
    destruct (IHc (b :: data) ltac:(lia)) as [Hex Hlen].
    destruct (decode_chunk fuel (b :: data)) as [[e rest] | k |];
      [| discriminate | contradiction].
    specialize (Hlen e rest eq_refl).
    pose proof (IHs rest ltac:(lia)) as Hex'.
    destruct (decode_children fuel rest); [discriminate | discriminate | contradiction].
Qed.

(** Every chunk is decoded or rejected. *)
Lemma decode_chunk_total (input : bytes) :
  decode_chunk (2 * List.length input + 2) input <> Exhausted.
Proof.
  destruct (decoder_enough_fuel (2 * List.length input + 2)) as [Hc _].
  apply Hc. lia.
Qed.

End BinaryFacts.

(** * Further properties of the driver *)

(** ** Framing *)

Lemma byte_of_N_value (x : N) : Byte.to_N (byte_of_N x) = x mod 256.
Proof.
  unfold byte_of_N. change 255 with (N.ones 8). rewrite N.land_ones.
  change (2 ^ 8) with 256.
  destruct (Byte.of_N (x mod 256)) as [b |] eqn:E.
  - now apply Byte.to_of_N.
  - apply Byte.of_N_None_iff in E.
    pose proof (N.mod_lt x 256 ltac:(lia)). lia.
Qed.

(** The size field written for [n] reads back as [n]. *)
Lemma big_endian_value (n : N) :
  n < 2 ^ 32 ->
  match Binary.big_endian n with
  | [b0; b1; b2; b3] => uint32_of_big_endian b0 b1 b2 b3 = n
  | _ => False
  end.
Proof.
  intros Hn. change (2 ^ 32) with 4294967296 in Hn. unfold Binary.big_endian.
  rewrite uint32_of_big_endian_sum, !byte_of_N_value, !N.shiftr_div_pow2.
  change (2 ^ 24) with 16777216. change (2 ^ 16) with 65536.
  change (2 ^ 8) with 256.
  pose proof (N.div_mod n 256 ltac:(lia)) as E0.
  pose proof (N.div_mod (n / 256) 256 ltac:(lia)) as E1.
  pose proof (N.div_mod (n / 65536) 256 ltac:(lia)) as E2.
  rewrite N.Div0.div_div in E1. change (256 * 256) with 65536 in E1.
  replace (n / 65536 / 256) with (n / 16777216) in E2
    by (rewrite N.Div0.div_div; reflexivity).
  assert (E3 : n / 16777216 < 256)
    by (apply N.Div0.div_lt_upper_bound; lia).
  rewrite (N.mod_small (n / 16777216) 256 E3).
  lia.
Qed.

Lemma frame_length (c : Chunk) :
  List.length (frame c) = (5 + List.length (snd c))%nat.
Proof. reflexivity. Qed.

(** Reading past a prefix is reading what follows it. *)
Lemma read_uint8_after (pre x : bytes) (i : nat) :
  read_uint8 (pre ++ x) (N.of_nat (List.length pre + i))
  = nth_error (buffer x) i.
Proof.
  unfold read_uint8, buffer. rewrite Nat2N.id, <- app_assoc.
  rewrite nth_error_app2 by lia. f_equal. lia.
Qed.

(** The size and the type the loop reads at the start of a framed chunk. *)
Lemma read_frame (pre more : bytes) (c : Chunk) :
  sized c ->
  declared_size (pre ++ frame c ++ more) (N.of_nat (List.length pre))
  = Some (N.of_nat (List.length (snd c)))
  /\ type_code (pre ++ frame c ++ more) (N.of_nat (List.length pre))
     = Some (Byte.to_N (fst c)).
Proof.
  intros Hc. unfold declared_size, type_code.
  replace (N.of_nat (List.length pre)) with (N.of_nat (List.length pre + 0)) by (f_equal; lia).
  replace (N.of_nat (List.length pre + 0) + 1) with (N.of_nat (List.length pre + 1)) by lia.
  replace (N.of_nat (List.length pre + 0) + 2) with (N.of_nat (List.length pre + 2)) by lia.
  replace (N.of_nat (List.length pre + 0) + 3) with (N.of_nat (List.length pre + 3)) by lia.
  replace (N.of_nat (List.length pre + 0) + 4) with (N.of_nat (List.length pre + 4)) by lia.
  rewrite !read_uint8_after.
  pose proof (big_endian_value _ Hc) as Hsize.
  unfold frame, Binary.chunk.
  destruct (Binary.big_endian (N.of_nat (List.length (snd c))))
    as [| b0 [| b1 [| b2 [| b3 [| ? ?]]]]]; try contradiction.
  simpl. now rewrite Hsize.
Qed.

Lemma frames_cons (c : Chunk) (rest : list Chunk) :
  frames (c :: rest) = frame c ++ frames rest.
Proof. reflexivity. Qed.

(** ** The loop over well-framed chunks *)

Section WellFramed.
Context `{Host} `{WexprLibrary}.

(** At or past the end of the input the loop is over. *)
Lemma scan_at_end (input : bytes) (fuel : nat) (s : Scan) :
  N.of_nat (List.length input) <= curPos s ->
  scan fuel input s = Returned s.
Proof.
  intros Hend. destruct fuel; simpl;
    destruct (N.ltb_spec (curPos s) (N.of_nat (List.length input)));
    solve [lia | reflexivity].
Qed.

(** From a position where well-framed chunks fill the rest of the input, the
    loop leaves what [over_chunks] tells. *)
Lemma scan_frames (input : bytes) :
  fits input ->
  forall (chunks : list Chunk) (pre : bytes) (s : Scan),
    input = pre ++ frames chunks ->
    curPos s = N.of_nat (List.length pre) ->
    Forall sized chunks ->
    leaves (scan (List.length input) input s)
    = Returned (over_chunks chunks (expr s) (err s)).
Proof.
  intros Hfit chunks. induction chunks as [| c rest IH]; intros pre s Hin Hpos Hsized.
  - simpl in Hin. rewrite app_nil_r in Hin. subst input.
    rewrite scan_at_end by lia. reflexivity.
  - inversion Hsized as [| ? ? Hc Hrest]; subst.
    rewrite frames_cons in *.
    set (input := pre ++ frame c ++ frames rest) in *.
    assert (Hlen : List.length input
                   = (List.length pre + 5 + List.length (snd c)
                      + List.length (frames rest))%nat).
    { unfold input. rewrite !length_app, frame_length. lia. }
    assert (Hlt : curPos s < N.of_nat (List.length input)) by lia.
    destruct (read_frame pre (frames rest) c Hc) as [Hsize Htype].
    fold input in Hsize, Htype. rewrite <- Hpos in Hsize, Htype.
    rewrite (scan_fuel input Hfit (List.length input) (S (List.length input)) s)
      by lia.
    cbn [scan].
    destruct (N.ltb_spec (curPos s) (N.of_nat (List.length input))) as [_ | Hge];
      [| lia].
    rewrite (scan_body_cases input s _ _ Hfit Hlt Hsize Htype).
    cbn [over_chunks]. unfold is_expression_chunk.
    assert (Hskip : skipn (N.to_nat (curPos s)) input = frame c ++ frames rest).
    { rewrite Hpos, Nat2N.id. unfold input.
      rewrite skipn_app, skipn_all, Nat.sub_diag. reflexivity. }
    destruct (Byte.to_N (fst c) <=? 4).
    + destruct (expr s) as [e |]; [reflexivity |].
      rewrite Hskip, frames_cons.
      destruct (wexpr_Expression_createFromBinaryChunk _ _ _) as [e error'].
      apply (IH (pre ++ frame c)
               {| curPos := curPos s + 5 + N.of_nat (List.length (snd c));
                  expr := e; err := error' |}).
      * unfold input. now rewrite <- app_assoc.
      * cbn [curPos]. rewrite length_app, frame_length. lia.
      * exact Hrest.
    + apply (IH (pre ++ frame c)
               {| curPos := curPos s + 5 + N.of_nat (List.length (snd c));
                  expr := expr s; err := err s |}).
      * unfold input. now rewrite <- app_assoc.
      * cbn [curPos]. rewrite length_app, frame_length. lia.
      * exact Hrest.
Qed.

(** Chunks of other types leave the expression and the error as they are. *)
Lemma over_auxiliary_chunks (chunks : list Chunk)
    (built : option WexprExpression) (error : WexprError) :
  Forall (fun c => is_expression_chunk c = false) chunks ->
  over_chunks chunks built error = (built, error).
Proof.
  intros Haux. induction Haux as [| c rest Hc _ IH]; [reflexivity |].
  cbn [over_chunks]. now rewrite Hc.
Qed.

Lemma over_chunks_after_auxiliary (aux chunks : list Chunk)
    (built : option WexprExpression) (error : WexprError) :
  Forall (fun c => is_expression_chunk c = false) aux ->
  over_chunks (aux ++ chunks) built error = over_chunks chunks built error.
Proof.
  intros Haux. induction Haux as [| c rest Hc _ IH]; [reflexivity |].
  cbn [app over_chunks]. now rewrite Hc.
Qed.

End WellFramed.

(** ** What the loop makes of a file *)

Section Files.
Context `{Host} `{WexprLibrary}.

Lemma fileHeader_bytes : fileHeader = validHeader.
Proof.
  unfold fileHeader, bytes_of_uint32, wexpr_uint32ToBig.
  destruct endianness; reflexivity.
Qed.

Lemma load_frames (chunks : list Chunk) :
  fits (validHeader ++ frames chunks) ->
  Forall sized chunks ->
  load (validHeader ++ frames chunks)
  = Returned (over_chunks chunks None WEXPR_ERROR_INIT).
Proof.
  intros Hfit Hsized. rewrite load_valid_header.
  apply (scan_frames (validHeader ++ frames chunks) Hfit chunks validHeader
           scan_start); [reflexivity | reflexivity | exact Hsized].
Qed.

(** X1.  The header that binary output starts with is the same twenty bytes
    on either kind of host, and the header tests of [main] accept it: an
    input that starts with it is handed to the chunk loop. *)
Theorem written_header_is_accepted (chunks : bytes) :
  fileHeader
  = [x83; x42; x57; x45; x58; x50; x52; x0a; x00; x00; x00; x01;
     x00; x00; x00; x00; x00; x00; x00; x00]
  /\ load (fileHeader ++ chunks)
     = leaves (scan (List.length (fileHeader ++ chunks)) (fileHeader ++ chunks)
                 scan_start).
Proof.
  split; [rewrite fileHeader_bytes; reflexivity |].
  rewrite fileHeader_bytes. apply load_valid_header.
Qed.

(** X2.  On a file made of the header and well-framed chunks, the loop over
    byte offsets does what [over_chunks] tells chunk by chunk: chunks of type
    above 4 are passed over, an expression chunk is decoded from where it
    starts with its size plus 5 as length, and an expression chunk met when an
    expression is there ends the loop with BinaryMultipleExpressions. *)
Theorem loop_follows_the_chunks (chunks : list Chunk) :
  fits (validHeader ++ frames chunks) ->
  Forall sized chunks ->
  load (validHeader ++ frames chunks)
  = Returned (over_chunks chunks None WEXPR_ERROR_INIT).
Proof. exact (load_frames chunks). Qed.

(** X3.  When a file holds one expression chunk among chunks of other types,
    before it and after it, what is loaded is what the decoder makes of that
    chunk: the others change neither the expression nor the error. *)
Theorem lone_expression_chunk_is_loaded (before after : list Chunk) (c : Chunk) :
  fits (validHeader ++ frames (before ++ c :: after)) ->
  Forall sized (before ++ c :: after) ->
  Forall (fun a => is_expression_chunk a = false) before ->
  Forall (fun a => is_expression_chunk a = false) after ->
  is_expression_chunk c = true ->
  load (validHeader ++ frames (before ++ c :: after))
  = Returned (wexpr_Expression_createFromBinaryChunk (frames (c :: after))
                (N.of_nat (List.length (snd c)) + 5) WEXPR_ERROR_INIT).
Proof.
  intros Hfit Hsized Hbefore Hafter Hc.
  rewrite (load_frames _ Hfit Hsized).
  rewrite over_chunks_after_auxiliary by exact Hbefore.
  cbn [over_chunks]. rewrite Hc.
  destruct (wexpr_Expression_createFromBinaryChunk _ _ _) as [e error'].
  now rewrite over_auxiliary_chunks.
Qed.

(** X4.  An expression chunk whose decoding fails does not count as the
    expression: the loop goes on, and a second expression chunk is decoded
    too, with the error of the first handed to the decoder; no
    BinaryMultipleExpressions is raised. *)
Theorem failed_chunk_is_not_counted (c1 c2 : Chunk) (failure : WexprError) :
  fits (validHeader ++ frames [c1; c2]) ->
  sized c1 -> sized c2 ->
  is_expression_chunk c1 = true ->
  is_expression_chunk c2 = true ->
  wexpr_Expression_createFromBinaryChunk (frames [c1; c2])
    (N.of_nat (List.length (snd c1)) + 5) WEXPR_ERROR_INIT
  = (None, failure) ->
  load (validHeader ++ frames [c1; c2])
  = Returned (wexpr_Expression_createFromBinaryChunk (frames [c2])
                (N.of_nat (List.length (snd c2)) + 5) failure).
Proof.
  intros Hfit Hs1 Hs2 Hc1 Hc2 Hfail.
  rewrite (load_frames _ Hfit) by (repeat constructor; assumption).
  cbn [over_chunks]. rewrite Hc1, Hfail, Hc2.
  destruct (wexpr_Expression_createFromBinaryChunk (frames [c2]) _ failure)
    as [e error']. reflexivity.
Qed.

Lemma scan_body_fault_iff (input : bytes) (s : Scan) :
  fits input ->
  curPos s < N.of_nat (List.length input) ->
  scan_body input s = Fault <-> N.of_nat (List.length input) < curPos s + 4.
Proof.
  intros Hfit Hpos. split.
  - intros Hfault.
    destruct (N.ltb_spec (N.of_nat (List.length input)) (curPos s + 4))
      as [Hlt | Hge]; [exact Hlt | exfalso].
    destruct (declared_size_inside input (curPos s) ltac:(lia)) as [n Hsize].
    destruct (read_uint8_inside input (curPos s + 4) Hge) as [b Hb].
    assert (Htype : type_code input (curPos s) = Some (Byte.to_N b))
      by (unfold type_code; now rewrite Hb).
    rewrite (scan_body_cases input s _ _ Hfit Hpos Hsize Htype) in Hfault.
    destruct (Byte.to_N b <=? 4); [| discriminate].
    destruct (expr s); [discriminate |].
    destruct (wexpr_Expression_createFromBinaryChunk _ _ _). discriminate.
  - intros Hlt. unfold scan_body.
    unfold fits in Hfit. change (2 ^ 63) with 9223372036854775808 in Hfit.
    rewrite (size_t_add_small (curPos s) 4)
      by (change (2 ^ 64) with 18446744073709551616; lia).
    destruct (read_uint8 input (curPos s + 4)) as [b |] eqn:Hb.
    + apply read_uint8_bound in Hb. lia.
    + now destruct (read_uint32 input (curPos s)).
Qed.

(** X5.  A pass through the loop body reads outside the input buffer exactly
    when fewer than four bytes follow the byte at [curPos]: the loop tests
    [curPos < endPos] only, and reads the five bytes of a chunk header. *)
Theorem body_faults_iff_truncated (input : bytes) (s : Scan) :
  fits input ->
  curPos s < N.of_nat (List.length input) ->
  scan_body input s = Fault <-> N.of_nat (List.length input) < curPos s + 4.
Proof. exact (scan_body_fault_iff input s). Qed.

(** X6.  A file that ends one to three bytes after the header makes the loop
    read outside the buffer: no error is raised for the truncated chunk. *)
Theorem truncated_chunk_header_is_read (tail : bytes) :
  tail <> [] ->
  (List.length tail < 4)%nat ->
  load (validHeader ++ tail) = OutOfBounds.
Proof.
  intros Hne Hshort. rewrite load_valid_header.
  assert (Hlen : List.length (validHeader ++ tail) = (20 + List.length tail)%nat)
    by (rewrite length_app; reflexivity).
  assert (Hpos : (0 < List.length tail)%nat)
    by (destruct tail; [contradiction | simpl; lia]).
  assert (Hfit : fits (validHeader ++ tail))
    by (unfold fits; rewrite Hlen; change (2 ^ 63) with 9223372036854775808; lia).
  rewrite Hlen at 1. cbn [Nat.add scan].
  destruct (N.ltb_spec (curPos scan_start) (N.of_nat (List.length (validHeader ++ tail))))
    as [Hlt | Hge]; [| simpl in Hge; lia].
  assert (Hfault : scan_body (validHeader ++ tail) scan_start = Fault).
  { apply scan_body_fault_iff; [exact Hfit | exact Hlt |]. simpl. lia. }
  now rewrite Hfault.
Qed.

End Files.

(** ** The driver as a whole *)

Section Whole.
Context `{Host} `{WexprLibrary}.

(** X7.  A chunk whose declared size runs past the end of the file is not
    checked by the driver: an expression chunk is handed to the decoder with
    the declared size plus 5 as its length, though fewer bytes are there, and
    the loop ends behind it. *)
Theorem overrunning_size_is_handed_on (s0 s1 s2 s3 type : byte) (payload : bytes) :
  let chunk := s0 :: s1 :: s2 :: s3 :: type :: payload in
  let size := uint32_of_big_endian s0 s1 s2 s3 in
  fits (validHeader ++ chunk) ->
  N.of_nat (List.length payload) < size ->
  Byte.to_N type <= 4 ->
  load (validHeader ++ chunk)
  = Returned (wexpr_Expression_createFromBinaryChunk chunk (size + 5)
                WEXPR_ERROR_INIT).
Proof.
  intros chunk size Hfit Hover Htype. rewrite load_valid_header.
  set (input := validHeader ++ chunk) in *.
  assert (Hlen : List.length input = (25 + List.length payload)%nat) by reflexivity.
  assert (Hpos : curPos scan_start < N.of_nat (List.length input))
    by (rewrite Hlen; cbn [curPos scan_start]; lia).
  rewrite (scan_fuel input Hfit (List.length input) (S (List.length input))
             scan_start) by lia.
  cbn [scan].
  destruct (N.ltb_spec (curPos scan_start) (N.of_nat (List.length input)))
    as [_ | Hge]; [| lia].
  rewrite (scan_body_cases input scan_start size (Byte.to_N type) Hfit Hpos
             eq_refl eq_refl).
  destruct (N.leb_spec (Byte.to_N type) 4) as [_ | Hgt]; [| lia].
  cbn [expr scan_start].
  change (skipn (N.to_nat (curPos scan_start)) input) with chunk.
  cbn [err scan_start].
  destruct (wexpr_Expression_createFromBinaryChunk chunk (size + 5) WEXPR_ERROR_INIT)
    as [e error'].
  rewrite scan_at_end by (cbn [curPos scan_start]; lia).
  reflexivity.
Qed.

(** X8.  The exit status is 0 or 1, and it is 0 exactly when the version or
    the help was asked for, or a known command loaded an expression and no
    error. *)
Theorem exit_status_tells_success (r : Results) (input : bytes) (result : Run) :
  main r input = Returned result ->
  (status result = 0%Z \/ status result = 1%Z)
  /\ (status result = 0%Z <->
      version r = true \/ help r = true
      \/ (command r <> CommandUnknown
          /\ exists e error,
              load input = Returned (Some e, error)
              /\ code error = WexprErrorCodeNone)).
Proof.
  unfold main. destruct (version r); [intros [= <-]; simpl; tauto |].
  destruct (help r); [intros [= <-]; simpl; tauto |].
  assert (Hfail : forall ev,
             (status (mkRun ev EXIT_FAILURE) = 0%Z \/ status (mkRun ev EXIT_FAILURE) = 1%Z)
             /\ (status (mkRun ev EXIT_FAILURE) = 0%Z -> False))
    by (intros ev; split; [right; reflexivity | discriminate]).
  assert (Hrun : run r input = Returned result ->
                 command r <> CommandUnknown ->
                 (status result = 0%Z \/ status result = 1%Z)
                 /\ (status result = 0%Z <->
                     false = true \/ false = true
                     \/ (command r <> CommandUnknown
                         /\ exists e error,
                             load input = Returned (Some e, error)
                             /\ code error = WexprErrorCodeNone))).
  { unfold run. intros Hres Hknown.
    destruct (load input) as [[x error] | |]; try discriminate.
    destruct (code_is_set (code error)) eqn:Hset.
    - assert (Hcode : code error <> WexprErrorCodeNone)
        by (intros E; rewrite E in Hset; discriminate).
      destruct (match command r with CommandValidate => true | _ => false end);
        injection Hres as <-; (split; [right; reflexivity |]);
        (split; [discriminate |]);
        intros [F | [F | (_ & e & error' & [= _ <-] & Hnone)]];
        try discriminate; contradiction.
    - assert (Hcode : code error = WexprErrorCodeNone)
        by (destruct (code error); try discriminate; reflexivity).
      destruct x as [e |].
      + injection Hres as <-. split; [left; reflexivity |].
        split; [| reflexivity]. intros _. right. right.
        split; [exact Hknown |]. exists e, error. split; [reflexivity | exact Hcode].
      + destruct (match command r with CommandValidate => true | _ => false end);
          injection Hres as <-; (split; [right; reflexivity |]);
          (split; [discriminate |]);
          intros [F | [F | (_ & e & error' & [= ?] & _)]]; discriminate. }
  destruct (command r) eqn:Hcmd;
    try (intros Hres; apply Hrun; [exact Hres | discriminate]).
  intros [= <-]. split; [right; reflexivity |].
  split; [discriminate |].
  intros [F | [F | (Hknown & _)]]; try discriminate. contradiction.
Qed.

(** X9.  Under a command that converts (humanReadable, mini, binary), a run
    that fails writes to the error stream only, and a run that succeeds
    writes exactly once, to the output path, and nothing to the error
    stream. *)
Theorem output_is_written_on_success_only (r : Results) (input : bytes)
    (result : Run) :
  main r input = Returned result ->
  normal_flow r ->
  command r <> CommandValidate ->
  (status result = EXIT_FAILURE ->
   Forall (fun ev => exists l, ev = Stderr l) (events result))
  /\ (status result = EXIT_SUCCESS ->
      exists content, events result = [Output (outputPath r) content]).
Proof.
  intros Hres (Hv & Hh & Hknown) Hnv. unfold main in Hres.
  rewrite Hv, Hh in Hres.
  assert (Hrun : run r input = Returned result)
    by (destruct (command r); try exact Hres; contradiction).
  clear Hres. unfold run in Hrun.
  destruct (load input) as [[x error] | |]; try discriminate.
  destruct (code_is_set (code error)).
  - destruct (command r); try contradiction; injection Hrun as <-;
      (split; [intros _; repeat constructor; eexists; reflexivity | discriminate]).
  - destruct x as [e |].
    + destruct (command r); try contradiction; injection Hrun as <-;
        (split; [discriminate | intros _; eexists; reflexivity]).
    + destruct (command r); try contradiction; injection Hrun as <-;
        (split; [intros _; repeat constructor; eexists; reflexivity | discriminate]).
Qed.

(** X10.  What the binary command writes, the driver loads again: when the
    library's binary representation of the loaded expression is one
    well-framed expression chunk, the output is the header followed by that
    chunk, and loading the output hands exactly that chunk, with its exact
    length, to the decoder. *)
Theorem binary_output_reloads (r : Results) (input : bytes)
    (e : WexprExpression) (error : WexprError) (c : Chunk) :
  normal_flow r ->
  command r = CommandBinary ->
  load input = Returned (Some e, error) ->
  code error = WexprErrorCodeNone ->
  wexpr_Expression_createBinaryRepresentation e = frame c ->
  is_expression_chunk c = true ->
  sized c ->
  fits (validHeader ++ frame c) ->
  main r input
  = Returned {| events := [Output (outputPath r) (validHeader ++ frame c)];
                status := EXIT_SUCCESS |}
  /\ load (validHeader ++ frame c)
     = Returned (wexpr_Expression_createFromBinaryChunk (frame c)
                   (N.of_nat (List.length (frame c))) WEXPR_ERROR_INIT).
Proof.
  intros (Hv & Hh & _) Hcmd Hload Hcode Hrepr Hc Hsized Hfit. split.
  - unfold main. rewrite Hv, Hh, Hcmd. unfold run.
    rewrite Hload, Hcode, Hcmd, Hrepr, fileHeader_bytes. reflexivity.
  - assert (Hone : frames [c] = frame c) by (apply app_nil_r).
    rewrite <- Hone in Hfit |- * at 1.
    rewrite (load_frames [c] Hfit) by (repeat constructor; exact Hsized).
    cbn [over_chunks]. rewrite Hc, Hone, frame_length.
    replace (N.of_nat (5 + List.length (snd c)))
      with (N.of_nat (List.length (snd c)) + 5) by lia.
    destruct (wexpr_Expression_createFromBinaryChunk _ _ _). reflexivity.
Qed.

(** X11.  The chunk loop ends: every pass that falls through moves [curPos]
    on by at least the five bytes of a chunk header, so an input that fits is
    worked off within as many passes as it has bytes. *)
Theorem chunk_loop_terminates (input : bytes) :
  fits input ->
  load input <> OutOfFuel
  /\ forall s s',
      curPos s < N.of_nat (List.length input) ->
      scan_body input s = Continue s' ->
      curPos s + 5 <= curPos s'.
Proof.
  intros Hfit. split; [now apply load_ends |].
  intros s s'. now apply scan_body_advances.
Qed.

End Whole.

(** ** Which library function an input reaches *)

Section Dispatch.
Context `{Host}.
Variable L : WexprLibrary.
Variable parser :
  bytes -> N -> WexprError -> option (@WexprExpression L) * WexprError.
Variable decoder :
  bytes -> N -> WexprError -> option (@WexprExpression L) * WexprError.

(** The loop body does not look at the text parser. *)
Lemma scan_body_with_parser (input : bytes)
    (s' : @Scan (with_parser L parser)) (s : @Scan L) :
  curPos s' = curPos s -> expr s' = expr s -> err s' = err s ->
  match @scan_body _ (with_parser L parser) input s', @scan_body _ L input s with
  | Continue a', Continue a | Break a', Break a =>
      curPos a' = curPos a /\ expr a' = expr a /\ err a' = err a
  | Fault, Fault => True
  | _, _ => False
  end.
Proof.
  intros Hpos Hexpr Herr. unfold scan_body. rewrite Hpos, Hexpr, Herr.
  destruct (read_uint32 input (curPos s)); [| exact I].
  destruct (read_uint8 input (size_t_add (curPos s) 4)); [| exact I].
  destruct (Byte.to_N b <=? 4); [| simpl; auto].
  destruct (expr s); [simpl; auto |].
  cbn [wexpr_Expression_createFromBinaryChunk with_parser].
  destruct (wexpr_Expression_createFromBinaryChunk _ _ _). simpl. auto.
Qed.

Lemma scan_with_parser (input : bytes) (fuel : nat) :
  forall (s' : @Scan (with_parser L parser)) (s : @Scan L),
    curPos s' = curPos s -> expr s' = expr s -> err s' = err s ->
    @leaves (with_parser L parser) (@scan _ (with_parser L parser) fuel input s')
    = @leaves L (@scan _ L fuel input s).
Proof.
  induction fuel as [| fuel IH]; intros s' s Hpos Hexpr Herr; cbn [scan];
    rewrite Hpos; destruct (curPos s <? N.of_nat (List.length input));
    try reflexivity; try (simpl; now rewrite Hexpr, Herr).
  pose proof (scan_body_with_parser input s' s Hpos Hexpr Herr) as Hbody.
  destruct (@scan_body _ (with_parser L parser) input s') as [a' | a' |];
    destruct (@scan_body _ L input s) as [a | a |]; try contradiction.
  - destruct Hbody as (Hp & He & Hr). now apply IH.
  - destruct Hbody as (Hp & He & Hr). simpl. now rewrite He, Hr.
  - reflexivity.
Qed.

(** X12.  An input that starts with 0x83 never reaches the text parser, and
    any other input, the empty one included, never reaches the chunk decoder:
    exchanging the one function of the library leaves what is loaded as it
    was. *)
Theorem dispatch_is_exclusive (input : bytes) :
  (hd_error input = Some x83 ->
   @load _ (with_parser L parser) input = @load _ L input)
  /\ (hd_error input <> Some x83 ->
      @load _ (with_decoder L decoder) input = @load _ L input).
Proof.
  split.
  - intros Hhd. destruct input as [| b rest]; [discriminate |].
    injection Hhd as ->. unfold load.
    rewrite byte_eqb_refl, andb_true_r.
    destruct (N.leb_spec 1 (N.of_nat (List.length (x83 :: rest)))) as [_ | Hlt];
      [| simpl List.length in Hlt; lia].
    destruct (N.of_nat (List.length (x83 :: rest)) <? 20); [reflexivity |].
    destruct (memcmp_differs (x83 :: rest) 0 magic); [reflexivity |].
    destruct (read_uint32 (x83 :: rest) 8); [| reflexivity].
    destruct (negb (n =? wexpr_uint32ToBig 1)); [reflexivity |].
    destruct (memcmp_differs (x83 :: rest) 12 reserved); [reflexivity |].
    apply scan_with_parser; reflexivity.
  - intros Hhd. unfold load. destruct input as [| b rest].
    + rewrite andb_false_r. reflexivity.
    + assert (Hb : byte_eqb b x83 = false).
      { apply byte_eqb_neq. intros ->. now apply Hhd. }
      rewrite Hb, andb_false_r. reflexivity.
Qed.

End Dispatch.

(** ** The host's byte order *)

Section Hosts.
Variables H1 H2 : Host.
Context `{WexprLibrary}.

Lemma read_uint32_bytes (Hh : Host) (input : bytes) (i v : N) :
  @read_uint32 Hh input i = Some v ->
  exists b0 b1 b2 b3,
    read_uint8 input i = Some b0 /\ read_uint8 input (i + 1) = Some b1
    /\ read_uint8 input (i + 2) = Some b2 /\ read_uint8 input (i + 3) = Some b3
    /\ v = @uint32_of_bytes Hh b0 b1 b2 b3.
Proof.
  unfold read_uint32.
  destruct (read_uint8 input i) as [b0 |]; [| discriminate].
  destruct (read_uint8 input (i + 1)) as [b1 |]; [| discriminate].
  destruct (read_uint8 input (i + 2)) as [b2 |]; [| discriminate].
  destruct (read_uint8 input (i + 3)) as [b3 |]; [| discriminate].
  intros [= <-]. exists b0, b1, b2, b3. repeat split; reflexivity.
Qed.

Lemma read_uint32_defined (input : bytes) (i : N) :
  @read_uint32 H1 input i = None <-> @read_uint32 H2 input i = None.
Proof.
  unfold read_uint32.
  destruct (read_uint8 input i); [| tauto].
  destruct (read_uint8 input (i + 1)); [| tauto].
  destruct (read_uint8 input (i + 2)); [| tauto].
  destruct (read_uint8 input (i + 3)); [| tauto].
  split; discriminate.
Qed.

Lemma scan_body_any_host (input : bytes) (s : Scan) :
  @scan_body H1 _ input s = @scan_body H2 _ input s.
Proof.
  unfold scan_body.
  pose proof (@native_size H1 input (curPos s)) as E1.
  pose proof (@native_size H2 input (curPos s)) as E2.
  destruct (@read_uint32 H1 input (curPos s)) as [raw1 |],
           (@read_uint32 H2 input (curPos s)) as [raw2 |];
    simpl in E1, E2; try congruence.
  assert (E : @wexpr_bigUInt32ToNative H1 raw1 = @wexpr_bigUInt32ToNative H2 raw2)
    by congruence.
  rewrite E. reflexivity.
Qed.

Lemma scan_any_host (input : bytes) (fuel : nat) :
  forall s : Scan, @scan H1 _ fuel input s = @scan H2 _ fuel input s.
Proof.
  induction fuel as [| fuel IH]; intros s; cbn [scan]; [reflexivity |].
  rewrite scan_body_any_host.
  destruct (curPos s <? N.of_nat (List.length input)); [| reflexivity].
  destruct (@scan_body H2 _ input s); [apply IH | reflexivity | reflexivity].
Qed.

(** X13.  What the driver loads does not depend on the byte order of the
    host it runs on: the version field and the chunk sizes are read through
    the endian helpers, so a little-endian and a big-endian host agree on
    every input. *)
Theorem load_on_any_host (input : bytes) :
  @load H1 _ input = @load H2 _ input.
Proof.
  unfold load.
  destruct ((1 <=? N.of_nat (List.length input))
            && match input with
               | [] => false
               | b :: _ => byte_eqb b x83
               end); [| reflexivity].
  destruct (N.of_nat (List.length input) <? 20); [reflexivity |].
  destruct (memcmp_differs input 0 magic); [reflexivity |].
  destruct (@read_uint32 H1 input 8) as [v1 |] eqn:E1,
           (@read_uint32 H2 input 8) as [v2 |] eqn:E2.
  - apply read_uint32_bytes in E1, E2.
    destruct E1 as (a0 & a1 & a2 & a3 & A0 & A1 & A2 & A3 & ->).
    destruct E2 as (b0 & b1 & b2 & b3 & B0 & B1 & B2 & B3 & ->).
    assert (a0 = b0) by congruence. assert (a1 = b1) by congruence.
    assert (a2 = b2) by congruence. assert (a3 = b3) by congruence.
    subst. rewrite !version_test, scan_any_host. reflexivity.
  - apply read_uint32_defined in E2. congruence.
  - apply read_uint32_defined in E1. congruence.
  - reflexivity.
Qed.

End Hosts.


(** ** The further properties on concrete inputs *)

Lemma loop_follows_the_chunks_witness :
  @load littleEndianHost specLibrary
    (validHeader ++ frames [auxOne; nullOne; auxOne])
  = Returned (Some Null, WEXPR_ERROR_INIT).
Proof.
  apply (@loop_follows_the_chunks littleEndianHost specLibrary
           [auxOne; nullOne; auxOne]).
  - reflexivity.
  - repeat constructor.
Defined.

Lemma lone_expression_chunk_is_loaded_witness :
  @load littleEndianHost specLibrary
    (validHeader ++ frames ([auxOne] ++ nullOne :: [auxOne]))
  = Returned (Some Null, WEXPR_ERROR_INIT).
Proof.
  apply (@lone_expression_chunk_is_loaded littleEndianHost specLibrary
           [auxOne] [auxOne] nullOne).
  - reflexivity.
  - repeat constructor.
  - repeat constructor.
  - repeat constructor.
  - reflexivity.
Defined.

Lemma failed_chunk_is_not_counted_witness :
  @load littleEndianHost specLibrary (validHeader ++ frames [brokenArray; nullOne])
  = Returned (Some Null,
              {| code := WexprErrorCodeBinaryUnknownType;
                 message := "Unknown chunk type";
                 line := 0;
                 column := 0 |}).
Proof.
  apply (@failed_chunk_is_not_counted littleEndianHost specLibrary
           brokenArray nullOne).
  - reflexivity.
  - reflexivity.
  - reflexivity.
  - reflexivity.
  - reflexivity.
  - reflexivity.
Defined.

Lemma body_faults_iff_truncated_witness :
  @scan_body littleEndianHost specLibrary (validHeader ++ [x00; x00]) scan_start
  = Fault.
Proof.
  apply (@body_faults_iff_truncated littleEndianHost specLibrary
           (validHeader ++ [x00; x00]) scan_start).
  - reflexivity.
  - reflexivity.
  - reflexivity.
Defined.

Lemma truncated_chunk_header_is_read_witness :
  @load littleEndianHost specLibrary (validHeader ++ [x00; x00; x00])
  = OutOfBounds.
Proof.
  apply (@truncated_chunk_header_is_read littleEndianHost specLibrary
           [x00; x00; x00]).
  - discriminate.
  - simpl. lia.
Defined.

Lemma overrunning_size_is_handed_on_witness :
  @load littleEndianHost specLibrary
    (validHeader ++ [x00; x00; x00; x09; x01; x61])
  = Returned (None, {| code := WexprErrorCodeBinaryChunkOverflow;
                       message := "Chunk overflows its buffer";
                       line := 0;
                       column := 0 |}).
Proof.
  apply (@overrunning_size_is_handed_on littleEndianHost specLibrary
           x00 x00 x00 x09 x01 [x61]).
  - reflexivity.
  - reflexivity.
  - discriminate.
Defined.

Lemma exit_status_tells_success_witness :
  (0%Z = 0%Z \/ 0%Z = 1%Z)
  /\ (0%Z = 0%Z <->
      false = true \/ false = true
      \/ (CommandMini <> CommandUnknown
          /\ exists e error,
              @load littleEndianHost specLibrary (text "null")
              = Returned (Some e, error)
              /\ code error = WexprErrorCodeNone)).
Proof.
  apply (@exit_status_tells_success littleEndianHost specLibrary miniFromStdin
           (text "null") {| events := [Output "-" (text "null")]; status := 0 |}).
  reflexivity.
Defined.

Lemma output_is_written_on_success_only_witness :
  (1%Z = EXIT_FAILURE ->
   Forall (fun ev => exists l, ev = Stderr l)
     [Stderr "WexprTool: Error occurred with wexpr:";
      Stderr "WexprTool: (stdin):1:1: Empty string"])
  /\ (1%Z = EXIT_SUCCESS ->
      exists content,
        [Stderr "WexprTool: Error occurred with wexpr:";
         Stderr "WexprTool: (stdin):1:1: Empty string"]
        = [Output "-" content]).
Proof.
  apply (@output_is_written_on_success_only littleEndianHost specLibrary
           miniFromStdin (text ")")
           {| events := [Stderr "WexprTool: Error occurred with wexpr:";
                         Stderr "WexprTool: (stdin):1:1: Empty string"];
              status := 1 |}).
  - reflexivity.
  - repeat split; discriminate.
  - discriminate.
Defined.

Lemma binary_output_reloads_witness :
  @main littleEndianHost specLibrary binaryFromStdin (text "null")
  = Returned {| events := [Output "-" (validHeader ++ frame nullOne)];
                status := EXIT_SUCCESS |}
  /\ @load littleEndianHost specLibrary (validHeader ++ frame nullOne)
     = Returned (Some Null, WEXPR_ERROR_INIT).
Proof.
  apply (@binary_output_reloads littleEndianHost specLibrary binaryFromStdin
           (text "null") Null WEXPR_ERROR_INIT nullOne).
  - repeat split; discriminate.
  - reflexivity.
  - reflexivity.
  - reflexivity.
  - reflexivity.
  - reflexivity.
  - reflexivity.
  - reflexivity.
Defined.

Lemma chunk_loop_terminates_witness :
  @load littleEndianHost specLibrary (validHeader ++ nullChunk) <> OutOfFuel
  /\ forall s s',
      curPos s < N.of_nat (List.length (validHeader ++ nullChunk)) ->
      @scan_body littleEndianHost specLibrary (validHeader ++ nullChunk) s
      = Continue s' ->
      curPos s + 5 <= curPos s'.
Proof.
  apply (@chunk_loop_terminates littleEndianHost specLibrary
           (validHeader ++ nullChunk)).
  reflexivity.
Defined.

Lemma dispatch_is_exclusive_witness :
  @load littleEndianHost (with_parser specLibrary refuseAll)
    (validHeader ++ nullChunk)
  = @load littleEndianHost specLibrary (validHeader ++ nullChunk)
  /\ @load littleEndianHost (with_decoder specLibrary refuseAll) (text "null")
     = @load littleEndianHost specLibrary (text "null").
Proof.
  split.
  - apply (@dispatch_is_exclusive littleEndianHost specLibrary refuseAll refuseAll
             (validHeader ++ nullChunk)).
    reflexivity.
  - apply (@dispatch_is_exclusive littleEndianHost specLibrary refuseAll refuseAll
             (text "null")).
    discriminate.
Defined.
